(** * A chained hash table with automatic growth (package [hashtable])

    Shallow embedding of [hashtable/hashtable.go].  Unsigned machine
    integers are modelled as [Z] with their wrap-around written out,
    nullable node pointers as [option Node], Go panics as an explicit
    [Panic] outcome.  A method that updates the table, or the hasher it
    shares, returns the table it leaves. *)

From Stdlib Require Import ZArith Lia.
From Stdlib.Strings Require Import String Ascii Byte.
From stdpp Require Import base option list sets.

Local Open Scope Z_scope.

#[local] Set Warnings "-clear-no-such-hyp".

(** ** Outcomes of a call *)

(** A call either returns, or panics.  [KeyNotFound] is the panic that
    [Get] raises itself; the two others are Go run-time panics.
    [OutOfFuel] is an artefact of the embedding: it only says that the
    recursion bound handed to the model was too small. *)
Inductive panic (K : Type) : Type :=
| KeyNotFound (key : K)
| DivideByZero
| IndexOutOfRange.
Arguments KeyNotFound {K} key.
Arguments DivideByZero {K}.
Arguments IndexOutOfRange {K}.

Inductive result (K A : Type) : Type :=
| Ok (a : A)
| Panic (p : panic K)
| OutOfFuel.
Arguments Ok {K A} a.
Arguments Panic {K A} p.
Arguments OutOfFuel {K A}.

Definition result_bind {K A B} (f : A -> result K B) (m : result K A) : result K B :=
  match m with
  | Ok a => f a
  | Panic p => Panic p
  | OutOfFuel => OutOfFuel
  end.

#[global] Instance result_mbind {K} : MBind (result K) := @result_bind K.
#[global] Instance result_mret {K} : MRet (result K) := @Ok K.

(** ** Machine integers *)

Definition wrap32 (z : Z) : Z := z mod 2 ^ 32.
Definition wrap64 (z : Z) : Z := z mod 2 ^ 64.

(** ** The 64-bit FNV-1 hash of Go's [hash/fnv] *)

(** Modelled from the spec: the 64-bit FNV hasher that [NewHashTable]
    obtains from [fnv.New64()] belongs to Go's standard library and is not
    part of the repository.  The state of the hasher is one 64-bit word;
    [Write] multiplies by the FNV prime and then xors each byte in,
    [Sum64] reads the word and [Reset] restores the offset basis. *)
Module fnv.
Definition offset64 : Z := 14695981039346656037.
Definition prime64 : Z := 1099511628211.

Definition New64 : Z := offset64.

Definition Write (s : Z) (data : list byte) : Z :=
  fold_left (fun hash c => Z.lxor (wrap64 (hash * prime64)) (Z.of_N (Byte.to_N c)))
            data s.

Definition Sum64 (s : Z) : Z := s.

Definition Reset (s : Z) : Z := offset64.
End fnv.

(** ** The gob encoding of a string key *)

(** Modelled from the spec: the structural serialization of a key is done
    by Go's [encoding/gob], which is not part of the repository.  For a
    string the encoder emits one message: its byte count, the type id of
    [string] (6, sent as the signed integer 12), a zero field delta, the
    length of the string and its bytes.  Unsigned integers below 128 take
    one byte; larger ones are sent as the negated count of their
    big-endian bytes followed by those bytes. *)
Module gob.
Fixpoint bigEndian (fuel : nat) (n : Z) (acc : list byte) : list byte :=
  match fuel with
  | O => acc
  | S fuel' =>
      if n =? 0 then acc
      else
        let b := default x00 (Byte.of_N (Z.to_N (n mod 256))) in
        bigEndian fuel' (n / 256) (b :: acc)
  end.

Definition encodeUint (n : Z) : list byte :=
  if n <? 128 then [default x00 (Byte.of_N (Z.to_N n))]
  else
    let bs := bigEndian 8 n [] in
    default x00 (Byte.of_N (Z.to_N (256 - Z.of_nat (length bs)))) :: bs.

Definition EncodeString (s : string) : list byte :=
  let payload := list_byte_of_string s in
  let body := [x0c; x00] ++ encodeUint (Z.of_nat (length payload)) ++ payload in
  encodeUint (Z.of_nat (length body)) ++ body.
End gob.

(** ** The list collection of package [iterator] *)

Module iterator.

(** A call of [Remove] returns or stops on the run-time panic of a
    slice expression. *)
Inductive outcome (A : Type) : Type :=
| Returns (a : A)
| SliceBoundsOutOfRange.
Arguments Returns {A} a.
Arguments SliceBoundsOutOfRange {A}.

Record List (E : Type) : Type := mkList { elements : list E }.
Arguments mkList {E} elements.
Arguments elements {E} l.

Definition NewList {E : Type} : List E := mkList [].

(** [Iter]: the elements received from the channel until it is closed. *)
Definition Iter {E : Type} (l : List E) : list E := elements l.

Definition Append {E : Type} (l : List E) (element : E) : List E :=
  mkList (elements l ++ [element]).

(** [Map], [Filter] and [ForEach] range over [Iter].  The function
    handed to [ForEach] acts by its effects, here on a state [A]. *)
Definition Map {E R : Type} (f : E -> R) (l : List E) : List R :=
  fold_left (fun collection entry => Append collection (f entry)) (Iter l) NewList.

Definition Filter {E : Type} (f : E -> bool) (l : List E) : List E :=
  fold_left (fun collection entry =>
               if f entry then Append collection entry else collection)
            (Iter l) NewList.

Definition ForEach {E A : Type} (f : E -> A -> A) (l : List E) (a : A) : A :=
  fold_left (fun a entry => f entry a) (Iter l) a.

(** [Remove]: [append(l.elements[:index], l.elements[index+1:]...)].
    The first slice expression panics when [index] is negative or
    exceeds the capacity, the second when [index + 1] exceeds the
    length; the length never exceeds the capacity, so the call panics
    exactly when [index] is negative or not below the length. *)
Definition Remove {E : Type} (l : List E) (index : Z) : outcome (List E) :=
  if (index <? 0) || (Z.of_nat (length (elements l)) <? index + 1)
  then SliceBoundsOutOfRange
  else Returns (mkList (take (Z.to_nat index) (elements l) ++
                        drop (Z.to_nat (index + 1)) (elements l))).

Definition IsEmpty {E : Type} (l : List E) : bool :=
  Z.of_nat (length (elements l)) =? 0.

(** [Size] converts the length to a [uint16]. *)
Definition Size {E : Type} (l : List E) : Z :=
  Z.of_nat (length (elements l)) mod 2 ^ 16.

End iterator.

Module hashtable.

(** The bytes that [gob.NewEncoder(&keyBuffer).Encode(key)] leaves in
    [keyBuffer].  The encoder works by reflection on any key type, so the
    development is parametric in it. *)
Class GobEncoder (K : Type) : Type := gobEncode : K -> list byte.

Section HashTable.
Context {K V : Type} `{!GobEncoder K}.

Record Entry : Type := mkEntry { Key : K; Value : V }.

#[local] Unset Elimination Schemes.
Inductive Node : Type :=
  mkNode { entry : Entry; hash : Z; next : option Node }.
#[local] Set Elimination Schemes.

Record HashTable : Type := mkHashTable {
  actualBucketLength : Z;
  actualBucketSize : Z;
  sizeItems : Z;
  buckets : list (option Node);
  hasher : Z
}.

Abbreviation res := (result K).

(** Field updates ([h.f = x] in the source). *)
Definition set_buckets (bs : list (option Node)) (h : HashTable) : HashTable :=
  mkHashTable (actualBucketLength h) (actualBucketSize h) (sizeItems h) bs (hasher h).
Definition set_actualBucketSize (n : Z) (h : HashTable) : HashTable :=
  mkHashTable (actualBucketLength h) n (sizeItems h) (buckets h) (hasher h).
Definition set_sizeItems (n : Z) (h : HashTable) : HashTable :=
  mkHashTable (actualBucketLength h) (actualBucketSize h) n (buckets h) (hasher h).
Definition set_hasher (s : Z) (h : HashTable) : HashTable :=
  mkHashTable (actualBucketLength h) (actualBucketSize h) (sizeItems h) (buckets h) s.

(** [make([]*Node[K, V], n)] *)
Definition make (n : Z) : list (option Node) := replicate (Z.to_nat n) None.

(** [copy(dst, src)]: the first [min (len dst) (len src)] slots of
    [dst] are overwritten. *)
Definition copy (dst src : list (option Node)) : list (option Node) :=
  take (length dst) src ++ drop (length src) dst.

(** [h.buckets[index]], read and written; an index outside the slice
    is a run-time panic. *)
Definition bucketAt (h : HashTable) (index : Z) : res (option Node) :=
  match buckets h !! Z.to_nat index with
  | Some b => Ok b
  | None => Panic IndexOutOfRange
  end.

Definition setBucketAt (h : HashTable) (index : Z) (b : option Node) : res HashTable :=
  if decide (Z.to_nat index < length (buckets h))%nat
  then Ok (set_buckets (<[Z.to_nat index := b]> (buckets h)) h)
  else Panic IndexOutOfRange.

Definition NewHashTable : HashTable :=
  mkHashTable 2 0 0 (make 2) fnv.New64.

Definition isFull (h : HashTable) : bool :=
  Z.shiftr (actualBucketLength h) 1 <? actualBucketSize h.

Definition resetBucket (newLength : Z) (h : HashTable) : HashTable :=
  mkHashTable newLength 0 0 (make newLength) (hasher h).

(** [generateHash]: the key is encoded, written to the shared hasher
    and the sum is read; the deferred [Reset] runs on return. *)
Definition generateHash (h : HashTable) (key : K) : Z * HashTable :=
  let s := fnv.Write (hasher h) (gobEncode key) in
  (fnv.Sum64 s, set_hasher (fnv.Reset s) h).

Definition generateIndex (h : HashTable) (hash : Z) : res Z :=
  if actualBucketLength h =? 0 then Panic DivideByZero
  else Ok (wrap32 (hash mod actualBucketLength h)).

Definition Hash (h : HashTable) (key : K) : res (Z * Z * HashTable) :=
  let '(hash, h) := generateHash h key in
  index ← generateIndex h hash;
  Ok (hash, index, h).

(** The chain walk of [HandleColision]: the chain that starts at
    [colidedNode] after the walk, and whether [newNode] was linked at
    its end (in which case the source increments [sizeItems]). *)
Fixpoint walkChain (newNode colidedNode : Node) : Node * bool :=
  match colidedNode with
  | mkNode e hs nx =>
      if hs =? hash newNode then (mkNode (entry newNode) hs nx, false)
      else
        match nx with
        | None => (mkNode e hs (Some newNode), true)
        | Some n =>
            let '(n', linked) := walkChain newNode n in
            (mkNode e hs (Some n'), linked)
        end
  end.

(** [HandleColision]: the nodes are updated in place in the source, so
    the bucket at [index], which holds [colidedNode], sees the walk. *)
Definition HandleColision (h : HashTable) (newNode colidedNode : Node) (index : Z)
  : HashTable :=
  let '(chain, linked) := walkChain newNode colidedNode in
  let h := set_buckets (<[Z.to_nat index := Some chain]> (buckets h)) h in
  if linked then set_sizeItems (wrap32 (sizeItems h + 1)) h else h.

(** [insertNode] up to its load-factor test. *)
Definition placeNode (h : HashTable) (newNode : Node) (index : Z) : res HashTable :=
  b ← bucketAt h index;
  match b with
  | None =>
      h ← setBucketAt h index (Some newNode);
      let h := set_actualBucketSize (wrap32 (actualBucketSize h + 1)) h in
      Ok (set_sizeItems (wrap32 (sizeItems h + 1)) h)
  | Some colidedNode => Ok (HandleColision h newNode colidedNode index)
  end.

Definition insertNode (resize : HashTable -> res HashTable)
    (h : HashTable) (newNode : Node) (index : Z) : res HashTable :=
  h ← placeNode h newNode index;
  if isFull h then resize h else Ok h.

(** The inner loop of [Resize] on one chain of the snapshot. *)
Fixpoint reinsertChain (insert : HashTable -> K -> V -> res HashTable)
    (node : Node) (h : HashTable) : res HashTable :=
  match node with
  | mkNode e _ nx =>
      h ← insert h (Key e) (Value e);
      match nx with
      | None => Ok h
      | Some n => reinsertChain insert n h
      end
  end.

Definition reinsertBucket (insert : HashTable -> K -> V -> res HashTable)
    (h : res HashTable) (node : option Node) : res HashTable :=
  h ← h;
  match node with
  | None => Ok h
  | Some n => reinsertChain insert n h
  end.

(** [Resize], with the [Insert] it calls back as a parameter. *)
Definition Resize (insert : HashTable -> K -> V -> res HashTable)
    (h : HashTable) : res HashTable :=
  let tempBucket := copy (make (actualBucketLength h)) (buckets h) in
  let h := resetBucket (wrap32 (Z.shiftl (actualBucketLength h) 1)) h in
  fold_left (reinsertBucket insert) tempBucket (Ok h).

(** [Insert] and [Resize] call each other; [fuel] bounds the nesting
    of resizes. *)
Fixpoint InsertFuel (fuel : nat) (h : HashTable) (key : K) (value : V)
  : res HashTable :=
  '(hash, index, h) ← Hash h key;
  let newNode := mkNode (mkEntry key value) hash None in
  insertNode
    (match fuel with
     | O => fun _ => OutOfFuel
     | S fuel' => Resize (InsertFuel fuel')
     end)
    h newNode index.

(** A capacity is a 32-bit word, so 32 nested doublings exhaust it. *)
Definition Insert (h : HashTable) (key : K) (value : V) : res HashTable :=
  InsertFuel 32 h key value.

Fixpoint getLoop (node : Node) (hash : Z) : option V :=
  match node with
  | mkNode e hs nx =>
      if hs =? hash then Some (Value e)
      else
        match nx with
        | None => None
        | Some n => getLoop n hash
        end
  end.

Definition Get (h : HashTable) (key : K) : res (V * HashTable) :=
  '(hash, index, h) ← Hash h key;
  node ← bucketAt h index;
  match node with
  | None => Panic (KeyNotFound key)
  | Some node =>
      match getLoop node hash with
      | Some value => Ok (value, h)
      | None => Panic (KeyNotFound key)
      end
  end.

Definition Delete (h : HashTable) (key : K) : res HashTable :=
  '(_, index, h) ← Hash h key;
  h ← setBucketAt h index None;
  Ok (set_actualBucketSize (wrap32 (actualBucketSize h - 1)) h).

Definition Size (h : HashTable) : Z := sizeItems h.

(** The entries sent on the channel for one non-empty bucket. *)
Fixpoint iterChain (node : Node) : list Entry :=
  match node with
  | mkNode e _ nx =>
      mkEntry (Key e) (Value e) ::
      match nx with
      | None => []
      | Some n => iterChain n
      end
  end.

(** [Iter]: the entries received from the channel until it is closed. *)
Definition Iter (h : HashTable) : list Entry :=
  flat_map (fun node => match node with
                        | None => []
                        | Some n => iterChain n
                        end) (buckets h).

(** [Map], [Filter] and [ForEach] consume [Iter] and fill a fresh list
    of package [iterator]; the function handed to [ForEach] acts by its
    effects, here on a state [A]. *)
Definition Map {R : Type} (f : Entry -> R) (h : HashTable) : iterator.List R :=
  fold_left (fun collection entry => iterator.Append collection (f entry))
            (Iter h) iterator.NewList.

Definition Filter (f : Entry -> bool) (h : HashTable) : iterator.List Entry :=
  fold_left (fun collection entry =>
               if f entry then iterator.Append collection entry else collection)
            (Iter h) iterator.NewList.

Definition ForEach {A : Type} (f : Entry -> A -> A) (h : HashTable) (a : A) : A :=
  fold_left (fun a entry => f entry a) (Iter h) a.

(** ** Abstraction used to state and prove the properties *)

(** The hash that [generateHash] computes when the shared hasher is in
    its initial state. *)
Definition hashOf (key : K) : Z := fnv.Write fnv.offset64 (gobEncode key).

(** A chain as the list of its nodes, each given by its stored hash
    and its entry. *)
Fixpoint chainL (node : Node) : list (Z * Entry) :=
  match node with
  | mkNode e hs nx =>
      (hs, e) :: match nx with
                 | None => []
                 | Some n => chainL n
                 end
  end.

Definition bucketL (b : option Node) : list (Z * Entry) :=
  match b with
  | None => []
  | Some n => chainL n
  end.

(** All the nodes of the table, in bucket order and then chain order. *)
Definition allL (h : HashTable) : list (Z * Entry) := buckets h ≫= bucketL.

(** The number of nodes reachable across all chains. *)
Definition nodeCount (h : HashTable) : Z := Z.of_nat (length (allL h)).

(** Some node of the table has hash [hs] and entry [e]. *)
Definition stored (h : HashTable) (hs : Z) (e : Entry) : Prop := (hs, e) ∈ allL h.

(** Invariant 4 of the specification, for a 32-bit counter. *)
Definition countsNodes (h : HashTable) : Prop := sizeItems h = wrap32 (nodeCount h).

(** List counterparts of the two chain walks. *)
Fixpoint upsert (hs : Z) (e : Entry) (l : list (Z * Entry)) : list (Z * Entry) :=
  match l with
  | [] => [(hs, e)]
  | p :: l' => if p.1 =? hs then (p.1, e) :: l' else p :: upsert hs e l'
  end.

Fixpoint lookupL (hs : Z) (l : list (Z * Entry)) : option Entry :=
  match l with
  | [] => None
  | p :: l' => if p.1 =? hs then Some p.2 else lookupL hs l'
  end.

(** The invariant of the tables that the public operations build: the
    capacity is a power of two that fits 32 bits and is the length of
    the bucket array; a node sits in the bucket its hash selects, and
    its hash is the hash of its key; the hashes of one chain are
    pairwise different; the shared hasher is in its initial state; the
    two counters fit 32 bits. *)
Record wf (h : HashTable) : Prop := mkWf {
  wf_cap : ∃ e : nat, (e ≤ 31)%nat ∧ actualBucketLength h = 2 ^ Z.of_nat e;
  wf_len : Z.of_nat (length (buckets h)) = actualBucketLength h;
  wf_chain : ∀ (i : nat) (b : option Node), buckets h !! i = Some b →
    NoDup (bucketL b).*1 ∧
    Forall (λ p, p.1 mod actualBucketLength h = Z.of_nat i ∧ p.1 = hashOf (Key p.2))
           (bucketL b);
  wf_hasher : hasher h = fnv.offset64;
  wf_counters : 0 ≤ actualBucketSize h < 2 ^ 32 ∧ 0 ≤ sizeItems h < 2 ^ 32
}.

(** The tables a caller can build through the public operations
    ([Resize] is only ever run by [Insert]). *)
Inductive reachable : HashTable → Prop :=
| reach_New : reachable NewHashTable
| reach_Insert h key value h' :
    reachable h → Insert h key value = Ok h' → reachable h'
| reach_Get h key value h' :
    reachable h → Get h key = Ok (value, h') → reachable h'
| reach_Delete h key h' :
    reachable h → Delete h key = Ok h' → reachable h'
| reach_Hash h key hs index h' :
    reachable h → Hash h key = Ok (hs, index, h') → reachable h'.

(** The state in which [insertNode] runs its load-factor test. *)
Definition beforeLoadTest (h : HashTable) (key : K) (value : V) : res HashTable :=
  '(hash, index, h) ← Hash h key;
  placeNode h (mkNode (mkEntry key value) hash None) index.

(** [Insert h key value] reaches the call of [Resize] in [insertNode]. *)
Definition triggersResize (h : HashTable) (key : K) (value : V) : bool :=
  match beforeLoadTest h key value with
  | Ok h1 => isFull h1
  | _ => false
  end.

(** The two loops of [Resize] as one pass over the nodes of the
    snapshot. *)
Definition reinsertAll (insert : HashTable → K → V → res HashTable)
    (l : list (Z * Entry)) (r : res HashTable) : res HashTable :=
  fold_left (λ r p, h ← r; insert h (Key p.2) (Value p.2)) l r.

(** What an insertion does to a table that satisfies the invariant. *)
Definition insertSpec (insert : HashTable → K → V → res HashTable) : Prop :=
  ∀ h key value h',
    wf h → insert h key value = Ok h' →
    wf h' ∧
    actualBucketLength h ≤ actualBucketLength h' ∧
    (∀ hs e, stored h' hs e ↔
             (hs, e) = (hashOf key, mkEntry key value) ∨
             (hs ≠ hashOf key ∧ stored h hs e)) ∧
    (countsNodes h → countsNodes h').

(** The number of bucket slots that hold a chain, and the tables whose
    load-factor counter agrees with it ([Delete] on an empty slot breaks
    the agreement, [Resize] restores it). *)
Definition occupiedBuckets (h : HashTable) : Z :=
  Z.of_nat (length (filter is_Some (buckets h))).

Definition countsBuckets (h : HashTable) : Prop :=
  actualBucketSize h = occupiedBuckets h.

(** What an insertion does to the number of nodes and to that agreement. *)
Definition insertCounts (insert : HashTable → K → V → res HashTable) : Prop :=
  ∀ h key value h',
    wf h → insert h key value = Ok h' →
    nodeCount h' ≤ nodeCount h + 1 ∧ (countsBuckets h → countsBuckets h').

(** A call that returns, or stops on the division by zero that a
    capacity of zero causes; it is in particular not cut short by the
    recursion bound. *)
Definition returnsOrDivides {A : Type} (r : res A) : Prop :=
  match r with
  | Ok _ => True
  | Panic p => p = DivideByZero
  | OutOfFuel => False
  end.

(** No node of the bucket that [key] selects has the hash of [key]. *)
Definition neverInserted (h : HashTable) (key : K) : bool :=
  match buckets h !! Z.to_nat (hashOf key mod actualBucketLength h) with
  | Some b => forallb (λ p, negb (p.1 =? hashOf key)) (bucketL b)
  | None => true
  end.

(** The table that a call returned ([NewHashTable] if it did not). *)
Definition returned (r : res HashTable) : HashTable :=
  match r with
  | Ok h => h
  | _ => NewHashTable
  end.

(** What a caller of [Get] receives: the value, or the panic. *)
Definition GetValue (h : HashTable) (key : K) : res V :=
  match Get h key with
  | Ok (value, _) => Ok value
  | Panic p => Panic p
  | OutOfFuel => OutOfFuel
  end.

(** The value of the last pair of [kvs] whose key has hash [hs]. *)
Definition lastValue (hs : Z) (kvs : list (K * V)) : option V :=
  fold_left (λ found kv, if hashOf kv.1 =? hs then Some kv.2 else found) kvs None.

(** Successive calls of [Insert]. *)
Definition insertAll (h : HashTable) (kvs : list (K * V)) : res HashTable :=
  fold_left (λ r kv, h ← r; Insert h kv.1 kv.2) kvs (Ok h).

End HashTable.

Arguments Entry : clear implicits.
Arguments Node : clear implicits.
Arguments HashTable : clear implicits.

(** ** The table of the test suite: string keys and values *)

#[global] Instance gobString : GobEncoder string := gob.EncodeString.

Definition NewStringTable : HashTable string string := NewHashTable.

(** The decimal numerals ["0"] to ["19"], as [fmt.Sprint(i)] prints them. *)
Definition keys20 : list string :=
  ["0"; "1"; "2"; "3"; "4"; "5"; "6"; "7"; "8"; "9";
   "10"; "11"; "12"; "13"; "14"; "15"; "16"; "17"; "18"; "19"]%string.

(** The pairs that the growth test of the suite inserts. *)
Definition bars (keys : list string) : list (string * string) :=
  (λ key, (key, "bar"%string)) <$> keys.

(** Small tables used to exercise the statements below. *)
Definition fooTable : HashTable string string :=
  returned (Insert NewStringTable "foo" "bar")%string.
Definition oneTable : HashTable string string :=
  returned (Insert NewStringTable "0" "bar")%string.
Definition twoTable : HashTable string string :=
  returned (Insert oneTable "1" "bar")%string.
Definition placedTable : HashTable string string :=
  returned (beforeLoadTest oneTable "1" "bar")%string.
Definition threeTable : HashTable string string :=
  returned (insertAll NewStringTable (bars ["0"; "1"; "2"]%string)).
Definition table20 : HashTable string string :=
  returned (insertAll NewStringTable (bars keys20)).
Definition deletedTable : HashTable string string :=
  returned (Delete NewStringTable "foo"%string).
Definition reinsertedTable : HashTable string string :=
  returned (Insert deletedTable "foo" "bar")%string.

(** A table whose item count [Delete] has left stale, and the table
    after the next resizing insertion. *)
Definition staleTable : HashTable string string :=
  returned (Insert (returned (Delete fooTable "foo")) "0" "bar")%string.
Definition repairedTable : HashTable string string :=
  returned (Insert staleTable "1" "bar")%string.

(** [Resize] called by hand. *)
Definition resizedTable : HashTable string string :=
  returned (Resize Insert twoTable).

(** Insertions that repeat a key. *)
Definition repeatedPairs : list (string * string) :=
  [("0", "a"); ("1", "b"); ("0", "c")]%string.
Definition repeatedTable : HashTable string string :=
  returned (insertAll NewStringTable repeatedPairs).

(** An encoder under which all keys have the same bytes, hence the same
    hash, and two insertions of different keys under it. *)
Definition sameBytes : GobEncoder string := fun _ => [].
Definition collidedOnce : HashTable string string :=
  returned (@Insert string string sameBytes NewHashTable "a" "1")%string.
Definition collidedTwice : HashTable string string :=
  returned (@Insert string string sameBytes collidedOnce "b" "2")%string.

(** ** Chains as lists *)

Section Chains.
Context {K V : Type}.
Implicit Types (n : Node K V) (e : Entry K V) (l : list (Z * Entry K V)).

Lemma Node_ind (P : Node K V → Prop) :
  (∀ e hs, P (mkNode e hs None)) →
  (∀ e hs n, P n → P (mkNode e hs (Some n))) →
  ∀ n, P n.
Proof.
  intros Hlast Hlink. fix IH 1. intros [e hs [n|]].
  - apply Hlink, IH.
  - apply Hlast.
Qed.

Lemma Entry_eta e : mkEntry (Key e) (Value e) = e.
Proof. by destruct e. Qed.

Lemma chainL_nonempty n : chainL n ≠ [].
Proof. by destruct n. Qed.

Lemma upsert_nonempty hs e l : upsert hs e l ≠ [].
Proof. destruct l as [|p l]; simpl; [done|]. by destruct (p.1 =? hs). Qed.

Lemma walkChain_chainL (new n : Node K V) :
  next new = None →
  chainL (walkChain new n).1 = upsert (hash new) (entry new) (chainL n).
Proof.
  intros Hnew. induction n as [e hs|e hs n IH] using Node_ind; simpl.
  - destruct (hs =? hash new); simpl; [done|].
    destruct new as [e' hs' nx']; simpl in *. by subst.
  - destruct (hs =? hash new); simpl; [done|].
    destruct (walkChain new n) as [n' linked]; simpl in *. by rewrite IH.
Qed.

Lemma walkChain_linked (new n : Node K V) :
  (walkChain new n).2 = bool_decide (hash new ∉ (chainL n).*1).
Proof.
  induction n as [e hs|e hs n IH] using Node_ind; simpl.
  - destruct (Z.eqb_spec hs (hash new)) as [->|Hne]; simpl.
    + symmetry. apply bool_decide_eq_false. set_solver.
    + symmetry. apply bool_decide_eq_true. set_solver.
  - destruct (Z.eqb_spec hs (hash new)) as [->|Hne]; simpl.
    + symmetry. apply bool_decide_eq_false. set_solver.
    + destruct (walkChain new n) as [n' linked]; simpl in *. rewrite IH.
      apply bool_decide_ext. set_solver.
Qed.

Lemma getLoop_lookupL n hs : getLoop n hs = Value <$> lookupL hs (chainL n).
Proof.
  induction n as [e hs'|e hs' n IH] using Node_ind; simpl;
    destruct (hs' =? hs); by simpl.
Qed.

Lemma iterChain_chainL n : iterChain n = (chainL n).*2.
Proof.
  induction n as [e hs|e hs n IH] using Node_ind; simpl;
    rewrite Entry_eta; by f_equal.
Qed.

(** Facts on [upsert] and [lookupL]. *)

Lemma upsert_fst_fresh hs e l :
  hs ∉ l.*1 → upsert hs e l = l ++ [(hs, e)].
Proof.
  induction l as [|p l IH]; simpl; [done|]. intros Hnot.
  destruct (Z.eqb_spec p.1 hs) as [Heq|Hne]; [set_solver|].
  f_equal. apply IH. set_solver.
Qed.

Lemma upsert_fst_old hs e l : hs ∈ l.*1 → (upsert hs e l).*1 = l.*1.
Proof.
  induction l as [|p l IH]; simpl; [set_solver|]. intros Hin.
  destruct (Z.eqb_spec p.1 hs) as [Heq|Hne]; simpl; [done|].
  f_equal. apply IH. set_solver.
Qed.

Lemma upsert_length hs e l :
  length (upsert hs e l) =
  if bool_decide (hs ∉ l.*1) then S (length l) else length l.
Proof.
  case_bool_decide as Hin.
  - rewrite upsert_fst_fresh by done. rewrite length_app. simpl. lia.
  - rewrite <-(length_fmap fst (upsert hs e l)), upsert_fst_old by done.
    by rewrite length_fmap.
Qed.

Lemma upsert_NoDup hs e l : NoDup l.*1 → NoDup (upsert hs e l).*1.
Proof.
  intros Hnd. destruct (decide (hs ∈ l.*1)) as [Hin|Hnot].
  - by rewrite upsert_fst_old.
  - rewrite upsert_fst_fresh, fmap_app by done. simpl.
    apply NoDup_app. split_and!; [done| |apply NoDup_singleton].
    intros x Hx ->%list_elem_of_singleton. done.
Qed.

Lemma elem_of_upsert hs e l p :
  NoDup l.*1 →
  p ∈ upsert hs e l ↔ p = (hs, e) ∨ (p.1 ≠ hs ∧ p ∈ l).
Proof.
  induction l as [|q l IH]; simpl; intros Hnd.
  - set_solver.
  - apply NoDup_cons in Hnd as [Hq Hnd].
    destruct (Z.eqb_spec q.1 hs) as [Heq|Hne].
    + rewrite !elem_of_cons. split.
      * intros [->|Hp]; [left; by rewrite Heq|].
        right. split; [|by right]. intros Hp1. apply Hq. rewrite Heq, <-Hp1.
        by apply list_elem_of_fmap_2.
      * intros [->|[Hp1 [->|Hp]]]; [left; by rewrite Heq| |by right].
        by destruct Hp1.
    + rewrite !elem_of_cons, IH by done. split.
      * intros [->|[->|[? ?]]]; [right; split; [done|by left]|by left|].
        right. split; [done|by right].
      * intros [->|[Hp1 [->|Hp]]]; [right; by left|by left|right; by right].
Qed.

Lemma upsert_Forall (P : Z * Entry K V → Prop) hs e l :
  P (hs, e) → Forall P l → Forall P (upsert hs e l).
Proof.
  intros HP. induction 1 as [|q l Hq Hl IH]; simpl.
  - by apply Forall_singleton.
  - destruct (Z.eqb_spec q.1 hs) as [Heq|Hne]; constructor; try done.
    by rewrite Heq.
Qed.

Lemma lookupL_Some hs e l :
  NoDup l.*1 → lookupL hs l = Some e ↔ (hs, e) ∈ l.
Proof.
  induction l as [|q l IH]; simpl; intros Hnd.
  - split; [done|]. by intros ?%elem_of_nil.
  - apply NoDup_cons in Hnd as [Hq Hnd].
    destruct (Z.eqb_spec q.1 hs) as [Heq|Hne].
    + rewrite elem_of_cons. split.
      * intros [= <-]. left. destruct q; simpl in *; by subst.
      * intros [<-|Hin]; [done|]. destruct Hq. rewrite Heq.
        by apply (list_elem_of_fmap_2 fst l (hs, e)).
    + rewrite IH, elem_of_cons by done. split; [by right|].
      intros [<-|?]; [by destruct Hne|done].
Qed.

Lemma lookupL_None hs l : lookupL hs l = None ↔ hs ∉ l.*1.
Proof.
  induction l as [|q l IH]; simpl.
  - split; [intros _; apply not_elem_of_nil|done].
  - destruct (Z.eqb_spec q.1 hs) as [Heq|Hne].
    + split; [done|]. intros Hnot. destruct Hnot. rewrite Heq. by left.
    + rewrite IH, not_elem_of_cons. naive_solver.
Qed.

End Chains.

(** ** Tables that satisfy the invariant *)

Section Table.
Context {K V : Type} `{!GobEncoder K}.
Implicit Types (h : HashTable K V) (e : Entry K V) (b : option (Node K V)).
Implicit Types (key : K) (value : V).

Lemma wrap32_bounds (z : Z) : 0 ≤ wrap32 z < 2 ^ 32.
Proof. apply Z.mod_pos_bound. done. Qed.

Lemma wf_cap_bounds h : wf h → 0 < actualBucketLength h < 2 ^ 32.
Proof.
  intros [(x & Hx & ->) _ _ _ _]. split.
  - apply Z.pow_pos_nonneg; lia.
  - apply Z.pow_lt_mono_r; lia.
Qed.

Lemma wf_cap_max h : wf h → actualBucketLength h ≤ 2147483648.
Proof.
  intros [(x & Hx & ->) _ _ _ _]. change 2147483648 with (2 ^ 31).
  apply Z.pow_le_mono_r; lia.
Qed.

Lemma wf_index_bounds h hs :
  wf h → (Z.to_nat (hs mod actualBucketLength h) < length (buckets h))%nat.
Proof.
  intros Hwf. pose proof (wf_cap_bounds h Hwf) as Hc.
  pose proof (wf_len h Hwf) as Hl.
  pose proof (Z.mod_pos_bound hs (actualBucketLength h)). lia.
Qed.

Lemma set_hasher_id h : set_hasher (hasher h) h = h.
Proof. by destruct h. Qed.

(** On such a table [Hash] returns the hash of the key and the bucket
    it selects, and leaves the table as it found it. *)
Lemma Hash_wf h key :
  wf h →
  Hash h key = Ok (hashOf key, hashOf key mod actualBucketLength h, h).
Proof.
  intros Hwf. pose proof (wf_cap_bounds h Hwf) as Hc.
  assert (set_hasher fnv.offset64 h = h) as Hreset
    by (rewrite <-(wf_hasher h Hwf); apply set_hasher_id).
  unfold Hash, generateHash, generateIndex, fnv.Sum64, fnv.Reset.
  rewrite (wf_hasher h Hwf), Hreset. fold (hashOf key).
  destruct (Z.eqb_spec (actualBucketLength h) 0) as [?|_]; [lia|]. simpl.
  unfold wrap32. rewrite (Z.mod_small (_ mod _)); [done|].
  pose proof (Z.mod_pos_bound (hashOf key) (actualBucketLength h)). lia.
Qed.

Lemma bucketAt_wf h hs :
  wf h → ∃ b, buckets h !! Z.to_nat (hs mod actualBucketLength h) = Some b.
Proof.
  intros Hwf. apply lookup_lt_is_Some_2, wf_index_bounds, Hwf.
Qed.

Lemma stored_lookup h hs e :
  stored h hs e ↔ ∃ (i : nat) b, buckets h !! i = Some b ∧ (hs, e) ∈ bucketL b.
Proof.
  unfold stored, allL. rewrite list_elem_of_bind. split.
  - intros (b & Hin & (i & Hi)%list_elem_of_lookup). eauto.
  - intros (i & b & Hi & Hin). exists b. split; [done|].
    apply list_elem_of_lookup. eauto.
Qed.

Lemma stored_intro h hs e (i : nat) b :
  buckets h !! i = Some b → (hs, e) ∈ bucketL b → stored h hs e.
Proof. intros. apply stored_lookup. eauto. Qed.

(** A node can only sit in the bucket that its hash selects. *)
Lemma stored_bucket h hs e (i : nat) b :
  wf h → buckets h !! i = Some b → (hs, e) ∈ bucketL b →
  i = Z.to_nat (hs mod actualBucketLength h) ∧ hs = hashOf (Key e).
Proof.
  intros Hwf Hi Hin. destruct (wf_chain h Hwf i b Hi) as [_ Hall].
  rewrite Forall_forall in Hall. destruct (Hall _ Hin) as [Hmod Hkey].
  simpl in *. split; [lia|done].
Qed.

Lemma stored_home h hs e :
  wf h →
  stored h hs e ↔
  ∃ b, buckets h !! Z.to_nat (hs mod actualBucketLength h) = Some b ∧
       (hs, e) ∈ bucketL b.
Proof.
  intros Hwf. rewrite stored_lookup. split.
  - intros (i & b & Hi & Hin).
    destruct (stored_bucket h hs e i b Hwf Hi Hin) as [-> _]. eauto.
  - intros (b & Hi & Hin). eauto.
Qed.

Lemma stored_hashOf h hs e : wf h → stored h hs e → hs = hashOf (Key e).
Proof.
  intros Hwf (i & b & Hi & Hin)%stored_lookup.
  by destruct (stored_bucket h hs e i b Hwf Hi Hin).
Qed.

Lemma stored_functional h hs e e' :
  wf h → stored h hs e → stored h hs e' → e = e'.
Proof.
  intros Hwf (b & Hi & Hin)%stored_home (b' & Hi' & Hin')%stored_home; try done.
  assert (b' = b) as -> by congruence.
  destruct (wf_chain h Hwf _ b Hi) as [Hnd _].
  apply lookupL_Some in Hin, Hin'; try done. congruence.
Qed.

(** [Get] in terms of the stored nodes. *)
Lemma Get_lookupL h key b :
  wf h →
  buckets h !! Z.to_nat (hashOf key mod actualBucketLength h) = Some b →
  Get h key =
  match lookupL (hashOf key) (bucketL b) with
  | Some e => Ok (Value e, h)
  | None => Panic (KeyNotFound key)
  end.
Proof.
  intros Hwf Hb. unfold Get. rewrite Hash_wf by done. simpl.
  unfold bucketAt. rewrite Hb. simpl. destruct b as [n|]; simpl; [|done].
  rewrite getLoop_lookupL. by destruct (lookupL _ _).
Qed.

Lemma Get_stored h key e :
  wf h → stored h (hashOf key) e → Get h key = Ok (Value e, h).
Proof.
  intros Hwf (b & Hb & Hin)%stored_home; [|done].
  rewrite (Get_lookupL h key b) by done.
  destruct (wf_chain h Hwf _ b Hb) as [Hnd _].
  apply lookupL_Some in Hin; [|done]. by rewrite Hin.
Qed.

Lemma Get_not_stored h key :
  wf h → (∀ e, ¬ stored h (hashOf key) e) → Get h key = Panic (KeyNotFound key).
Proof.
  intros Hwf Hnone. destruct (bucketAt_wf h (hashOf key) Hwf) as [b Hb].
  rewrite (Get_lookupL h key b) by done.
  destruct (lookupL _ _) as [e|] eqn:Hl; [|done].
  destruct (wf_chain h Hwf _ b Hb) as [Hnd _].
  apply lookupL_Some in Hl; [|done]. destruct (Hnone e).
  apply stored_home; eauto.
Qed.

Lemma Get_Ok_inv h key value h' :
  wf h → Get h key = Ok (value, h') →
  h' = h ∧ ∃ e, stored h (hashOf key) e ∧ Value e = value.
Proof.
  intros Hwf HG. destruct (bucketAt_wf h (hashOf key) Hwf) as [b Hb].
  rewrite (Get_lookupL h key b) in HG by done.
  destruct (lookupL _ _) as [e|] eqn:Hl; [|done].
  destruct (wf_chain h Hwf _ b Hb) as [Hnd _].
  apply lookupL_Some in Hl; [|done]. injection HG as <- <-.
  split; [done|]. exists e. split; [|done]. apply stored_home; eauto.
Qed.

(** Replacing the chain of one bucket. *)
Lemma allL_insert_length (bs : list (option (Node K V))) (i : nat) b b' :
  bs !! i = Some b →
  (length (<[i := b']> bs ≫= bucketL) + length (bucketL b) =
   length (bs ≫= bucketL) + length (bucketL b'))%nat.
Proof.
  intros Hi. rewrite insert_take_drop by (by eapply lookup_lt_Some).
  rewrite <-(take_drop_middle bs i b Hi) at 3.
  rewrite !bind_app, !bind_cons, !length_app. lia.
Qed.

Lemma wf_update h h1 (i : nat) b b' hs0 e0 :
  wf h →
  i = Z.to_nat (hs0 mod actualBucketLength h) →
  buckets h !! i = Some b →
  bucketL b' = upsert hs0 e0 (bucketL b) →
  hs0 = hashOf (Key e0) →
  actualBucketLength h1 = actualBucketLength h →
  hasher h1 = hasher h →
  buckets h1 = <[i := b']> (buckets h) →
  0 ≤ actualBucketSize h1 < 2 ^ 32 →
  0 ≤ sizeItems h1 < 2 ^ 32 →
  wf h1 ∧
  ∀ hs e, stored h1 hs e ↔ (hs, e) = (hs0, e0) ∨ (hs ≠ hs0 ∧ stored h hs e).
Proof.
  intros Hwf Hi Hb Hb' Hkey Hcap Hhasher Hbs Hocc Hsize.
  pose proof (wf_cap_bounds h Hwf) as Hc.
  destruct (wf_chain h Hwf i b Hb) as [Hnd Hall].
  assert (Z.of_nat i = hs0 mod actualBucketLength h) as Hi'.
  { pose proof (Z.mod_pos_bound hs0 (actualBucketLength h)). lia. }
  split.
  - split.
    + rewrite Hcap. apply Hwf.
    + rewrite Hbs, length_insert, Hcap. apply Hwf.
    + intros j bj. rewrite Hbs, Hcap.
      intros [(<- & <- & _)|[Hne Hj]]%list_lookup_insert_Some.
      * rewrite Hb'. split; [by apply upsert_NoDup|].
        apply upsert_Forall; [|done]. simpl. by rewrite Hi'.
      * by apply (wf_chain h Hwf).
    + rewrite Hhasher. apply Hwf.
    + done.
  - intros hs e. split.
    + intros (j & bj & Hj & Hin)%stored_lookup. rewrite Hbs in Hj.
      apply list_lookup_insert_Some in Hj as [(<- & <- & _)|[Hne Hj]].
      * rewrite Hb' in Hin.
        apply elem_of_upsert in Hin as [->|[Hhs Hin]]; [by left|..|done].
        right. split; [done|]. by eapply stored_intro.
      * right. split; [|by eapply stored_intro].
        intros ->. destruct (stored_bucket h hs0 e j bj Hwf Hj Hin) as [-> _].
        by destruct Hne.
    + assert (buckets h1 !! i = Some b') as Hb1.
      { rewrite Hbs. apply list_lookup_insert_Some. left.
        split_and!; try done. by eapply lookup_lt_Some. }
      intros [[= -> ->]|[Hhs (j & bj & Hj & Hin)%stored_lookup]].
      * eapply stored_intro; [done|]. rewrite Hb'.
        apply elem_of_upsert; [done|]. by left.
      * destruct (decide (i = j)) as [<-|Hne].
        -- assert (bj = b) as -> by congruence.
           eapply stored_intro; [done|]. rewrite Hb'.
           apply elem_of_upsert; [done|]. right. by simpl.
        -- eapply stored_intro; [|done]. rewrite Hbs.
           apply list_lookup_insert_Some. right. done.
Qed.

(** The first part of [insertNode]: the node is stored, the nodes with
    another hash stay, and the item counter follows. *)
Lemma placeNode_wf h key value :
  wf h →
  ∃ h1,
    placeNode h (mkNode (mkEntry key value) (hashOf key) None)
              (hashOf key mod actualBucketLength h) = Ok h1 ∧
    wf h1 ∧
    actualBucketLength h1 = actualBucketLength h ∧
    (∀ hs e, stored h1 hs e ↔
             (hs, e) = (hashOf key, mkEntry key value) ∨
             (hs ≠ hashOf key ∧ stored h hs e)) ∧
    (countsNodes h → countsNodes h1).
Proof.
  intros Hwf. set (hs0 := hashOf key). set (e0 := mkEntry key value).
  destruct (wf_counters h Hwf) as [Hocc0 Hsize0].
  set (i := Z.to_nat (hs0 mod actualBucketLength h)).
  destruct (bucketAt_wf h hs0 Hwf) as [b Hb]. fold i in Hb.
  pose proof (wf_index_bounds h hs0 Hwf) as Hlt. fold i in Hlt.
  unfold placeNode, bucketAt. fold i. rewrite Hb. simpl.
  destruct b as [n|]; simpl.
  - unfold HandleColision. fold i.
    pose proof (walkChain_chainL (mkNode e0 hs0 None) n eq_refl) as Hchain.
    pose proof (walkChain_linked (mkNode e0 hs0 None) n) as Hlinked.
    destruct (walkChain (mkNode e0 hs0 None) n) as [c linked]. simpl in *.
    eexists. split; [done|].
    pose proof (allL_insert_length (buckets h) i (Some n) (Some c) Hb) as Hlen.
    simpl in Hlen. rewrite Hchain, upsert_length in Hlen.
    destruct linked; simpl.
    + destruct (wf_update h (set_sizeItems (wrap32 (sizeItems h + 1))
        (set_buckets (<[i:=Some c]> (buckets h)) h)) i (Some n) (Some c) hs0 e0)
        as [Hwf1 Hst]; try done; try apply wrap32_bounds.
      split_and!; try done. unfold countsNodes, nodeCount, allL. simpl.
      intros ->. symmetry in Hlinked. apply bool_decide_eq_true in Hlinked.
      rewrite bool_decide_true in Hlen by done.
      unfold wrap32. rewrite Zplus_mod_idemp_l. f_equal. lia.
    + destruct (wf_update h (set_buckets (<[i:=Some c]> (buckets h)) h)
        i (Some n) (Some c) hs0 e0) as [Hwf1 Hst]; try done.
      split_and!; try done. unfold countsNodes, nodeCount, allL. simpl.
      intros ->. symmetry in Hlinked. apply bool_decide_eq_false in Hlinked.
      rewrite bool_decide_false in Hlen by done. do 2 f_equal. lia.
  - unfold setBucketAt. fold i. rewrite decide_True by done. simpl.
    eexists. split; [done|].
    pose proof (allL_insert_length (buckets h) i None
                  (Some (mkNode e0 hs0 None)) Hb) as Hlen. simpl in Hlen.
    match goal with |- wf ?h1 ∧ _ =>
      destruct (wf_update h h1 i None (Some (mkNode e0 hs0 None)) hs0 e0)
        as [Hwf1 Hst]; try done; try apply wrap32_bounds
    end.
    split_and!; try done. unfold countsNodes, nodeCount, allL. simpl.
    intros ->. unfold wrap32. rewrite Zplus_mod_idemp_l. f_equal. lia.
Qed.

Lemma beforeLoadTest_wf h key value :
  wf h →
  ∃ h1,
    beforeLoadTest h key value = Ok h1 ∧
    wf h1 ∧
    actualBucketLength h1 = actualBucketLength h ∧
    (∀ hs e, stored h1 hs e ↔
             (hs, e) = (hashOf key, mkEntry key value) ∨
             (hs ≠ hashOf key ∧ stored h hs e)) ∧
    (countsNodes h → countsNodes h1).
Proof.
  intros Hwf. unfold beforeLoadTest. rewrite Hash_wf by done. simpl.
  by apply placeNode_wf.
Qed.

Lemma InsertFuel_unfold fuel h key value :
  InsertFuel fuel h key value =
  h1 ← beforeLoadTest h key value;
  if isFull h1 then
    match fuel with
    | O => OutOfFuel
    | S fuel' => Resize (InsertFuel fuel') h1
    end
  else Ok h1.
Proof.
  unfold beforeLoadTest. destruct fuel; simpl;
    (destruct (Hash h key) as [[[hs i] h0]| |]; simpl; [|done..]);
    unfold insertNode; by destruct (placeNode _ _ _).
Qed.

(** The hashes of the nodes of a table are pairwise different. *)
Lemma NoDup_bind_offset (bs : list (option (Node K V))) (m : Z) (off : nat) :
  (∀ (i : nat) b, bs !! i = Some b →
     NoDup (bucketL b).*1 ∧
     Forall (λ p, p.1 mod m = Z.of_nat (off + i)) (bucketL b)) →
  NoDup (bs ≫= bucketL).*1.
Proof.
  revert off. induction bs as [|a bs IH]; intros off Hbs.
  - constructor.
  - rewrite bind_cons, fmap_app. apply NoDup_app. split_and!.
    + apply (Hbs 0%nat a eq_refl).
    + intros x (p & -> & Hp)%list_elem_of_fmap (q & Hq & Hin)%list_elem_of_fmap.
      apply list_elem_of_bind in Hin as (b & Hin & (i & Hi)%list_elem_of_lookup).
      destruct (Hbs 0%nat a eq_refl) as [_ Ha].
      destruct (Hbs (S i) b Hi) as [_ Hb].
      rewrite Forall_forall in Ha, Hb.
      specialize (Ha _ Hp). specialize (Hb _ Hin). simpl in *.
      rewrite Hq in Ha. lia.
    + apply (IH (S off)). intros i b Hi. destruct (Hbs (S i) b Hi) as [? Hb].
      split; [done|]. by rewrite Nat.add_succ_r in Hb.
Qed.

Lemma NoDup_allL_hashes h : wf h → NoDup (allL h).*1.
Proof.
  intros Hwf. apply (NoDup_bind_offset _ (actualBucketLength h) 0).
  intros i b Hi. destruct (wf_chain h Hwf i b Hi) as [Hnd Hall].
  split; [done|]. eapply Forall_impl; [done|]. simpl. by intros p [? _].
Qed.

Lemma Forall_allL_hashOf h :
  wf h → Forall (λ p, p.1 = hashOf (Key p.2)) (allL h).
Proof.
  intros Hwf. apply Forall_forall. intros [hs e] Hin.
  by apply (stored_hashOf h hs e).
Qed.

(** *** [Resize] as one pass *)

Section Reinsert.
Variable insert : HashTable K V → K → V → result K (HashTable K V).

Lemma reinsertAll_cons p l r :
  reinsertAll insert (p :: l) r =
  reinsertAll insert l (h ← r; insert h (Key p.2) (Value p.2)).
Proof. done. Qed.

Lemma reinsertAll_app l1 l2 r :
  reinsertAll insert (l1 ++ l2) r = reinsertAll insert l2 (reinsertAll insert l1 r).
Proof. apply fold_left_app. Qed.

Lemma reinsertAll_Panic l p : reinsertAll insert l (Panic p) = Panic p.
Proof. induction l as [|q l IH]; [done|]. by rewrite reinsertAll_cons. Qed.

Lemma reinsertAll_OutOfFuel l : reinsertAll insert l OutOfFuel = OutOfFuel.
Proof. induction l as [|q l IH]; [done|]. by rewrite reinsertAll_cons. Qed.

Lemma reinsertChain_all n h :
  reinsertChain insert n h = reinsertAll insert (chainL n) (Ok h).
Proof.
  revert h. induction n as [e hs|e hs n IH] using Node_ind; intros h.
  - unfold reinsertAll. simpl. by destruct (insert h (Key e) (Value e)).
  - change (chainL (mkNode e hs (Some n))) with ((hs, e) :: chainL n).
    rewrite reinsertAll_cons. simpl.
    destruct (insert h (Key e) (Value e)) as [h1|p|]; simpl.
    + apply IH.
    + by rewrite reinsertAll_Panic.
    + by rewrite reinsertAll_OutOfFuel.
Qed.

Lemma reinsertBucket_all (bs : list (option (Node K V))) r :
  fold_left (reinsertBucket insert) bs r = reinsertAll insert (bs ≫= bucketL) r.
Proof.
  revert r. induction bs as [|b bs IH]; intros r; [done|].
  rewrite bind_cons, reinsertAll_app. simpl. rewrite IH. f_equal.
  unfold reinsertBucket. destruct r as [h|p|]; simpl.
  - destruct b as [n|]; simpl; [apply reinsertChain_all|done].
  - by rewrite reinsertAll_Panic.
  - by rewrite reinsertAll_OutOfFuel.
Qed.

Lemma copy_make h : wf h → copy (make (actualBucketLength h)) (buckets h) = buckets h.
Proof.
  intros Hwf. pose proof (wf_len h Hwf) as Hlen. unfold copy, make.
  rewrite length_replicate, take_ge, drop_ge, app_nil_r; try done.
  - rewrite length_replicate. lia.
  - lia.
Qed.

Lemma Resize_unfold h :
  wf h →
  Resize insert h =
  reinsertAll insert (allL h)
    (Ok (resetBucket (wrap32 (Z.shiftl (actualBucketLength h) 1)) h)).
Proof.
  intros Hwf. unfold Resize. rewrite copy_make by done.
  apply reinsertBucket_all.
Qed.

Hypothesis insert_spec : insertSpec insert.

Lemma reinsertAll_spec l h0 h' :
  wf h0 →
  reinsertAll insert l (Ok h0) = Ok h' →
  Forall (λ p, p.1 = hashOf (Key p.2)) l →
  NoDup l.*1 →
  (∀ p e, p ∈ l → ¬ stored h0 p.1 e) →
  wf h' ∧
  actualBucketLength h0 ≤ actualBucketLength h' ∧
  (∀ hs e, stored h' hs e ↔ (hs, e) ∈ l ∨ stored h0 hs e) ∧
  (countsNodes h0 → countsNodes h').
Proof.
  revert h0. induction l as [|[hs0 e0] l IH]; intros h0 Hwf Hrun Hall Hnd Hfresh.
  - injection Hrun as <-. split_and!; try done.
    intros hs e. rewrite elem_of_nil. naive_solver.
  - rewrite reinsertAll_cons in Hrun. simpl in Hrun.
    destruct (insert h0 (Key e0) (Value e0)) as [h1|p|] eqn:Hins;
      [|by rewrite reinsertAll_Panic in Hrun
       |by rewrite reinsertAll_OutOfFuel in Hrun].
    apply Forall_cons in Hall as [Hkey Hall]. simpl in Hkey.
    rewrite fmap_cons in Hnd. apply NoDup_cons in Hnd as [Hhs0 Hnd].
    destruct (insert_spec h0 _ _ h1 Hwf Hins) as (Hwf1 & Hcap1 & Hst1 & Hcnt1).
    rewrite Entry_eta, <-Hkey in Hst1.
    destruct (IH h1 Hwf1 Hrun Hall Hnd) as (Hwf' & Hcap' & Hst' & Hcnt').
    { intros q e Hq [[= Heq _]|[_ Hq0]]%Hst1.
      - apply Hhs0. simpl. rewrite <-Heq. by apply list_elem_of_fmap_2.
      - apply (Hfresh q e); [by right|done]. }
    split_and!; [done|lia| |tauto].
    intros hs e. rewrite Hst', Hst1, elem_of_cons. split.
    + intros [?|[?|[_ ?]]]; [left; by right|left; by left|by right].
    + intros [[?|?]|Hold]; [right; by left|by left|].
      right. right. split; [|done]. intros ->.
      apply (Hfresh (hs0, e0) e); [by left|done].
Qed.

(** The table that [resetBucket] leaves. *)
Lemma allL_make (n : Z) : @make K V n ≫= bucketL = [].
Proof. unfold make. by induction (Z.to_nat n). Qed.

Lemma allL_resetBucket (n : Z) h : allL (resetBucket n h) = [].
Proof. apply allL_make. Qed.

Lemma resetBucket_wf h (x : nat) :
  wf h → (x ≤ 31)%nat → wf (resetBucket (2 ^ Z.of_nat x) h).
Proof.
  intros Hwf Hx. assert (0 < 2 ^ Z.of_nat x) by (apply Z.pow_pos_nonneg; lia).
  split; simpl.
  - eauto.
  - unfold make. rewrite length_replicate. lia.
  - unfold make. intros i b [-> _]%lookup_replicate. simpl.
    split; [constructor|by apply Forall_nil].
  - apply Hwf.
  - done.
Qed.

Lemma doubled_capacity (x : nat) :
  (x ≤ 31)%nat →
  wrap32 (Z.shiftl (2 ^ Z.of_nat x) 1) =
  if decide (x = 31%nat) then 0 else 2 ^ Z.of_nat (S x).
Proof.
  intros Hx. case_decide as H31; [by subst|].
  rewrite Z.shiftl_mul_pow2, Nat2Z.inj_succ, Z.pow_succ_r by lia.
  unfold wrap32. rewrite Z.mod_small; [lia|].
  assert (0 < 2 ^ Z.of_nat x) by (apply Z.pow_pos_nonneg; lia).
  assert (2 ^ Z.of_nat x ≤ 2 ^ 30) by (apply Z.pow_le_mono_r; lia). lia.
Qed.

Hypothesis insert_zero :
  ∀ h key value, actualBucketLength h = 0 → insert h key value = Panic DivideByZero.

(** [Resize] on a table that holds a node: the capacity doubles and
    the nodes are the same; the item counter is recomputed. *)
Lemma Resize_spec h h' :
  wf h → allL h ≠ [] → Resize insert h = Ok h' →
  wf h' ∧
  2 * actualBucketLength h ≤ actualBucketLength h' ∧
  (∀ hs e, stored h' hs e ↔ stored h hs e) ∧
  countsNodes h'.
Proof.
  intros Hwf Hne Hrun. rewrite Resize_unfold in Hrun by done.
  destruct (wf_cap h Hwf) as (x & Hx & Hcap).
  rewrite Hcap, doubled_capacity in Hrun by done.
  case_decide as H31.
  - destruct (allL h) as [|p l]; [done|].
    rewrite reinsertAll_cons in Hrun. simpl in Hrun.
    rewrite insert_zero, reinsertAll_Panic in Hrun; done.
  - pose proof (resetBucket_wf h (S x) Hwf ltac:(lia)) as Hwf0.
    destruct (reinsertAll_spec (allL h) _ h' Hwf0 Hrun)
      as (Hwf' & Hcap' & Hst' & Hcnt').
    + by apply Forall_allL_hashOf.
    + by apply NoDup_allL_hashes.
    + intros p e _. unfold stored. rewrite allL_resetBucket.
      apply not_elem_of_nil.
    + simpl in Hcap'. rewrite Nat2Z.inj_succ, Z.pow_succ_r in Hcap' by lia.
      split_and!; [done|lia| |].
      * intros hs e. rewrite Hst'. unfold stored.
        rewrite allL_resetBucket, elem_of_nil. tauto.
      * apply Hcnt'. unfold countsNodes, nodeCount.
        by rewrite allL_resetBucket.
Qed.

End Reinsert.

(** *** [Insert] *)

Lemma InsertFuel_zero fuel h key value :
  actualBucketLength h = 0 → InsertFuel fuel h key value = Panic DivideByZero.
Proof.
  intros Hcap. destruct fuel; simpl; unfold Hash, generateHash, generateIndex;
    simpl; by rewrite Hcap.
Qed.

Lemma InsertFuel_spec fuel : insertSpec (@InsertFuel K V _ fuel).
Proof.
  induction fuel as [|fuel IH]; intros h key value h' Hwf Hrun;
    rewrite InsertFuel_unfold in Hrun;
    destruct (beforeLoadTest_wf h key value Hwf)
      as (h1 & Hb & Hwf1 & Hcap1 & Hst1 & Hcnt1);
    rewrite Hb in Hrun; simpl in Hrun; destruct (isFull h1); try done;
    try (injection Hrun as <-; split_and!; [done|lia|done|done]).
  assert (allL h1 ≠ []) as Hne.
  { intros Hnil. assert (stored h1 (hashOf key) (mkEntry key value)) as Hin
      by (apply Hst1; by left).
    unfold stored in Hin. rewrite Hnil in Hin. by apply elem_of_nil in Hin. }
  destruct (Resize_spec (InsertFuel fuel) IH (InsertFuel_zero fuel) h1 h' Hwf1 Hne Hrun)
    as (Hwf' & Hcap' & Hst' & Hcnt').
  pose proof (wf_cap_bounds h Hwf).
  split_and!; [done|lia| |done].
  intros hs e. by rewrite Hst', Hst1.
Qed.

Lemma Insert_spec : insertSpec (@Insert K V _).
Proof. apply InsertFuel_spec. Qed.

(** *** The recursion bound is large enough *)

Lemma reinsertAll_returns
    (insert : HashTable K V → K → V → result K (HashTable K V)) (c0 : Z) :
  insertSpec insert →
  (∀ h key value, wf h → c0 ≤ actualBucketLength h →
                  returnsOrDivides (insert h key value)) →
  ∀ l h0, wf h0 → c0 ≤ actualBucketLength h0 →
          returnsOrDivides (reinsertAll insert l (Ok h0)).
Proof.
  intros Hspec Hret. induction l as [|p l IH]; intros h0 Hwf Hc0; [done|].
  rewrite reinsertAll_cons. simpl.
  pose proof (Hret h0 (Key p.2) (Value p.2) Hwf Hc0) as Hr.
  destruct (insert h0 (Key p.2) (Value p.2)) as [h1|q|] eqn:Hins; [| |done].
  - destruct (Hspec h0 _ _ h1 Hwf Hins) as (Hwf1 & Hcap1 & _). apply IH; [done|lia].
  - by rewrite reinsertAll_Panic.
Qed.

Lemma pow2_le_inv (x y : nat) : 2 ^ Z.of_nat x ≤ 2 ^ Z.of_nat y → (x ≤ y)%nat.
Proof. intros Hle. apply Z.pow_le_mono_r_iff in Hle; lia. Qed.

Lemma InsertFuel_returns fuel h key value (x : nat) :
  wf h → actualBucketLength h = 2 ^ Z.of_nat x → (32 ≤ fuel + x)%nat →
  returnsOrDivides (InsertFuel fuel h key value).
Proof.
  revert h key value x.
  induction fuel as [|fuel IH]; intros h key value x Hwf Hcap Hfuel;
    pose proof (wf_cap_bounds h Hwf) as Hc;
    assert (x ≤ 31)%nat as Hx
      by (apply Nat.lt_succ_r, Nat2Z.inj_lt, (Z.pow_lt_mono_r_iff 2); lia);
    [lia|].
  rewrite InsertFuel_unfold.
  destruct (beforeLoadTest_wf h key value Hwf)
    as (h1 & -> & Hwf1 & Hcap1 & Hst1 & Hcnt1).
  simpl. destruct (isFull h1); [|done].
  rewrite Resize_unfold, Hcap1, Hcap, doubled_capacity by done.
  case_decide as H31.
  - destruct (allL h1) as [|p l]; [done|]. rewrite reinsertAll_cons. simpl.
    by rewrite InsertFuel_zero, reinsertAll_Panic.
  - apply (reinsertAll_returns _ (2 ^ Z.of_nat (S x))).
    + apply InsertFuel_spec.
    + intros h2 key2 value2 Hwf2 Hc2.
      destruct (wf_cap h2 Hwf2) as (y & Hy & Hcap2). apply (IH h2 _ _ y); try done.
      rewrite Hcap2 in Hc2. apply pow2_le_inv in Hc2. lia.
    + apply resetBucket_wf; [done|lia].
    + done.
Qed.

(** On a table that satisfies the invariant [Insert] returns, unless
    the capacity has outgrown 32 bits. *)
Lemma Insert_returns h key value : wf h → returnsOrDivides (Insert h key value).
Proof.
  intros Hwf. destruct (wf_cap h Hwf) as (x & Hx & Hcap).
  apply (InsertFuel_returns 32 h key value x); [done..|lia].
Qed.

(** *** [Delete] *)

Lemma Delete_wf h key :
  wf h →
  ∃ h',
    Delete h key = Ok h' ∧
    wf h' ∧
    buckets h' = <[Z.to_nat (hashOf key mod actualBucketLength h) := None]> (buckets h) ∧
    actualBucketLength h' = actualBucketLength h ∧
    actualBucketSize h' = wrap32 (actualBucketSize h - 1) ∧
    sizeItems h' = sizeItems h.
Proof.
  intros Hwf. unfold Delete. rewrite Hash_wf by done. simpl.
  unfold setBucketAt. rewrite decide_True by by apply wf_index_bounds. simpl.
  eexists. split; [done|]. split_and!; try done.
  split; simpl; try apply Hwf.
  - rewrite length_insert. apply Hwf.
  - intros i b [(_ & <- & _)|[_ Hi]]%list_lookup_insert_Some.
    + split; [constructor|by apply Forall_nil].
    + by apply (wf_chain h Hwf).
  - split; [apply wrap32_bounds|apply Hwf].
Qed.

(** *** Every table a caller can build satisfies the invariant *)

Lemma NewHashTable_wf : wf (@NewHashTable K V).
Proof.
  split; simpl; try done.
  - exists 1%nat. split; [lia|done].
  - intros i b [-> _]%lookup_replicate. split; [constructor|by apply Forall_nil].
Qed.

Lemma reachable_wf h : reachable h → wf h.
Proof.
  induction 1 as [|h key value h' _ IH Hrun|h key value h' _ IH Hrun
                  |h key h' _ IH Hrun|h key hs index h' _ IH Hrun].
  - apply NewHashTable_wf.
  - by destruct (Insert_spec h key value h' IH Hrun).
  - by destruct (Get_Ok_inv h key value h' IH Hrun) as [-> _].
  - destruct (Delete_wf h key IH) as (h2 & Hdel & Hwf2 & _). congruence.
  - rewrite Hash_wf in Hrun by done. by injection Hrun as _ _ <-.
Qed.

Lemma insertAll_snoc h (kvs : list (K * V)) kv :
  insertAll h (kvs ++ [kv]) = h' ← insertAll h kvs; Insert h' kv.1 kv.2.
Proof. unfold insertAll. by rewrite fold_left_app. Qed.

Lemma insertAll_reachable h (kvs : list (K * V)) h' :
  reachable h → insertAll h kvs = Ok h' → reachable h'.
Proof.
  intros Hh. revert h'. induction kvs as [|kv kvs IH] using rev_ind; intros h' Hrun.
  - by injection Hrun as <-.
  - rewrite insertAll_snoc in Hrun.
    destruct (insertAll h kvs) as [h1| |]; [|done..]. simpl in Hrun.
    eapply reach_Insert; [by apply IH|done].
Qed.

Lemma neverInserted_not_stored h key :
  wf h → neverInserted h key = true → ∀ e, ¬ stored h (hashOf key) e.
Proof.
  intros Hwf Hnever e (b & Hb & Hin)%stored_home; [|done].
  unfold neverInserted in Hnever. rewrite Hb in Hnever.
  rewrite forallb_forall in Hnever. apply list_elem_of_In, Hnever in Hin.
  simpl in Hin. by rewrite Z.eqb_refl in Hin.
Qed.

End Table.

(** ** [Insert] returns on tables of moderate size *)

Section Returns.
Context {K V : Type} `{!GobEncoder K}.
Implicit Types (h : HashTable K V) (e : Entry K V) (b : option (Node K V)).
Implicit Types (key : K) (value : V).

Lemma filter_insert_length {A} (P : A → Prop) `{!∀ x, Decision (P x)}
    (l : list A) (i : nat) (x y : A) :
  l !! i = Some x →
  (length (filter P (<[i := y]> l)) + (if decide (P x) then 1 else 0) =
   length (filter P l) + (if decide (P y) then 1 else 0))%nat.
Proof.
  intros Hi. rewrite insert_take_drop by (by eapply lookup_lt_Some).
  rewrite <-(take_drop_middle l i x Hi) at 3.
  rewrite !filter_app, !filter_cons, !length_app.
  repeat case_decide; simpl; lia.
Qed.

Lemma occupied_le_nodes (bs : list (option (Node K V))) :
  (length (filter is_Some bs) ≤ length (bs ≫= bucketL))%nat.
Proof.
  induction bs as [|b bs IH]; [done|].
  rewrite filter_cons, bind_cons, length_app. destruct b as [n|]; simpl.
  - pose proof (chainL_nonempty n). destruct (chainL n); [done|]. simpl. lia.
  - done.
Qed.

Lemma occupiedBuckets_le_nodeCount h : occupiedBuckets h ≤ nodeCount h.
Proof.
  unfold occupiedBuckets, nodeCount, allL.
  pose proof (occupied_le_nodes (buckets h)). lia.
Qed.

Lemma occupiedBuckets_le_capacity h :
  wf h → 0 ≤ occupiedBuckets h ≤ actualBucketLength h.
Proof.
  intros Hwf. unfold occupiedBuckets. rewrite <-(wf_len h Hwf).
  pose proof (length_filter is_Some (buckets h)). lia.
Qed.

Lemma occupiedBuckets_resetBucket (n : Z) h : occupiedBuckets (resetBucket n h) = 0.
Proof.
  unfold occupiedBuckets, resetBucket, make. simpl.
  induction (Z.to_nat n) as [|m IH]; [done|]. simpl.
  rewrite filter_cons, decide_False by (by intros [? ?]). done.
Qed.

Lemma beforeLoadTest_counts h key value h1 :
  wf h → beforeLoadTest h key value = Ok h1 →
  nodeCount h1 ≤ nodeCount h + 1 ∧ (countsBuckets h → countsBuckets h1).
Proof.
  intros Hwf Hplaced. pose proof (wf_cap_bounds h Hwf) as Hc.
  pose proof (occupiedBuckets_le_capacity h Hwf) as Hocc.
  unfold beforeLoadTest in Hplaced. rewrite Hash_wf in Hplaced by done.
  simpl in Hplaced. unfold placeNode, bucketAt in Hplaced.
  destruct (bucketAt_wf h (hashOf key) Hwf) as [b Hb]. rewrite Hb in Hplaced.
  simpl in Hplaced.
  pose proof (λ b', allL_insert_length (buckets h) _ b b' Hb) as Hlen.
  pose proof (λ b', filter_insert_length is_Some (buckets h) _ b b' Hb) as Hfil.
  destruct b as [n|].
  - unfold HandleColision in Hplaced.
    pose proof (walkChain_chainL (mkNode (mkEntry key value) (hashOf key) None)
                  n eq_refl) as Hchain.
    destruct (walkChain _ n) as [c linked]. simpl in Hchain.
    specialize (Hlen (Some c)). specialize (Hfil (Some c)). simpl in Hlen.
    rewrite Hchain, upsert_length in Hlen. simpl in Hfil.
    assert (nodeCount h1 ≤ nodeCount h + 1 ∧ occupiedBuckets h1 = occupiedBuckets h
            ∧ actualBucketSize h1 = actualBucketSize h) as (Hn & Ho & Ha).
    { unfold nodeCount, occupiedBuckets, allL.
      destruct linked; injection Hplaced as <-; simpl;
        (split_and!; [case_bool_decide; lia|lia|done]). }
    split; [done|]. unfold countsBuckets. congruence.
  - unfold setBucketAt in Hplaced.
    rewrite decide_True in Hplaced by by apply wf_index_bounds.
    simpl in Hplaced. injection Hplaced as <-.
    specialize (Hlen (Some (mkNode (mkEntry key value) (hashOf key) None))).
    specialize (Hfil (Some (mkNode (mkEntry key value) (hashOf key) None))).
    simpl in Hlen, Hfil.
    unfold countsBuckets, nodeCount, occupiedBuckets, allL in *. simpl.
    split; [lia|]. intros ->.
    pose proof (length_filter is_Some
      (<[Z.to_nat (hashOf key `mod` actualBucketLength h) :=
           Some (mkNode (mkEntry key value) (hashOf key) None)]> (buckets h))) as Hle.
    rewrite length_insert in Hle. pose proof (wf_len h Hwf).
    unfold wrap32. rewrite Z.mod_small; lia.
Qed.

Section Reinsert.
Variable insert : HashTable K V → K → V → result K (HashTable K V).
Hypothesis insert_spec : insertSpec insert.
Hypothesis insert_counts : insertCounts insert.

Lemma reinsertAll_counts l h0 h' :
  wf h0 →
  reinsertAll insert l (Ok h0) = Ok h' →
  nodeCount h' ≤ nodeCount h0 + Z.of_nat (length l) ∧
  (countsBuckets h0 → countsBuckets h').
Proof.
  revert h0. induction l as [|p l IH]; intros h0 Hwf Hrun.
  - injection Hrun as <-. simpl. split; [lia|done].
  - rewrite reinsertAll_cons in Hrun. simpl in Hrun.
    destruct (insert h0 (Key p.2) (Value p.2)) as [h1|q|] eqn:Hins;
      [|by rewrite reinsertAll_Panic in Hrun
       |by rewrite reinsertAll_OutOfFuel in Hrun].
    destruct (insert_spec h0 _ _ h1 Hwf Hins) as (Hwf1 & _).
    destruct (insert_counts h0 _ _ h1 Hwf Hins) as (Hn1 & Hb1).
    destruct (IH h1 Hwf1 Hrun) as (Hn' & Hb').
    split; [simpl length; lia|tauto].
Qed.

Hypothesis insert_zero :
  ∀ h key value, actualBucketLength h = 0 → insert h key value = Panic DivideByZero.

Lemma Resize_counts h h' :
  wf h → allL h ≠ [] → Resize insert h = Ok h' →
  nodeCount h' ≤ nodeCount h ∧ countsBuckets h'.
Proof.
  intros Hwf Hne Hrun. rewrite Resize_unfold in Hrun by done.
  destruct (wf_cap h Hwf) as (x & Hx & Hcap).
  rewrite Hcap, doubled_capacity in Hrun by done.
  case_decide as H31.
  - destruct (allL h) as [|p l]; [done|].
    rewrite reinsertAll_cons in Hrun. simpl in Hrun.
    rewrite insert_zero, reinsertAll_Panic in Hrun; done.
  - pose proof (resetBucket_wf h (S x) Hwf ltac:(lia)) as Hwf0.
    destruct (reinsertAll_counts (allL h) _ h' Hwf0 Hrun) as (Hn' & Hb').
    unfold nodeCount at 2 in Hn'. rewrite allL_resetBucket in Hn'. simpl in Hn'.
    split; [done|]. apply Hb'. unfold countsBuckets.
    by rewrite occupiedBuckets_resetBucket.
Qed.

Hypothesis insert_no_panic :
  ∀ h key value p,
    wf h → countsBuckets h → nodeCount h < 2 ^ 30 → insert h key value ≠ Panic p.

Lemma reinsertAll_no_panic l h0 p :
  wf h0 → countsBuckets h0 →
  nodeCount h0 + Z.of_nat (length l) ≤ 2 ^ 30 →
  reinsertAll insert l (Ok h0) ≠ Panic p.
Proof.
  revert h0. induction l as [|q l IH]; intros h0 Hwf Hb Hn; [done|].
  rewrite reinsertAll_cons. simpl. simpl length in Hn.
  destruct (insert h0 (Key q.2) (Value q.2)) as [h1|p'|] eqn:Hins.
  - destruct (insert_spec h0 _ _ h1 Hwf Hins) as (Hwf1 & _).
    destruct (insert_counts h0 _ _ h1 Hwf Hins) as (Hn1 & Hb1).
    apply IH; [done|tauto|lia].
  - by destruct (insert_no_panic h0 (Key q.2) (Value q.2) p' Hwf Hb ltac:(lia)).
  - by rewrite reinsertAll_OutOfFuel.
Qed.

End Reinsert.

Lemma InsertFuel_counts fuel : insertCounts (@InsertFuel K V _ fuel).
Proof.
  induction fuel as [|fuel IH]; intros h key value h' Hwf Hrun;
    rewrite InsertFuel_unfold in Hrun;
    destruct (beforeLoadTest_wf h key value Hwf)
      as (h1 & Hb & Hwf1 & Hcap1 & Hst1 & _);
    destruct (beforeLoadTest_counts h key value h1 Hwf Hb) as [Hn1 Hb1];
    rewrite Hb in Hrun; simpl in Hrun; destruct (isFull h1); try done;
    try (by injection Hrun as <-).
  assert (allL h1 ≠ []) as Hne.
  { intros Hnil. assert (stored h1 (hashOf key) (mkEntry key value)) as Hin
      by (apply Hst1; by left).
    unfold stored in Hin. rewrite Hnil in Hin. by apply elem_of_nil in Hin. }
  destruct (Resize_counts (InsertFuel fuel) (InsertFuel_spec fuel) IH
              (InsertFuel_zero fuel) h1 h' Hwf1 Hne Hrun) as (Hn' & Hb').
  split; [lia|done].
Qed.

Lemma InsertFuel_no_panic fuel h key value p :
  wf h →
  countsBuckets h ∨ actualBucketLength h ≤ 2 ^ 30 →
  nodeCount h < 2 ^ 30 →
  InsertFuel fuel h key value ≠ Panic p.
Proof.
  revert h key value p.
  induction fuel as [|fuel IH]; intros h key value p Hwf Hor Hn;
    rewrite InsertFuel_unfold;
    destruct (beforeLoadTest_wf h key value Hwf)
      as (h1 & Hb & Hwf1 & Hcap1 & Hst1 & _);
    destruct (beforeLoadTest_counts h key value h1 Hwf Hb) as [Hn1 Hb1];
    rewrite Hb; simpl; destruct (isFull h1) eqn:Hfull; try done.
  rewrite Resize_unfold by done.
  destruct (wf_cap h1 Hwf1) as (x & Hx & Hcap).
  assert (x ≤ 30)%nat as Hx30.
  { destruct Hor as [Hacc|Hsmall].
    - destruct (decide (x = 31%nat)) as [->|]; [|lia].
      unfold isFull in Hfull. apply Z.ltb_lt in Hfull.
      rewrite (Hb1 Hacc), Hcap in Hfull.
      change (Z.shiftr (2 ^ Z.of_nat 31) 1) with (2 ^ 30) in Hfull.
      pose proof (occupiedBuckets_le_nodeCount h1). lia.
    - rewrite <-Hcap1, Hcap in Hsmall. change 30 with (Z.of_nat 30) in Hsmall.
      by apply pow2_le_inv in Hsmall. }
  rewrite Hcap, doubled_capacity, decide_False by lia.
  apply (reinsertAll_no_panic (InsertFuel fuel)).
  - apply InsertFuel_spec.
  - apply InsertFuel_counts.
  - intros h2 key2 value2 p2 Hwf2 Hb2 Hn2. apply IH; [done|by left|done].
  - apply resetBucket_wf; [done|lia].
  - unfold countsBuckets. by rewrite occupiedBuckets_resetBucket.
  - unfold nodeCount at 1. rewrite allL_resetBucket. fold (nodeCount h1).
    simpl. lia.
Qed.

(** On a table that the public operations have built, of capacity at
    most 2^30 and with fewer than 2^30 nodes, [Insert] returns. *)
Lemma Insert_returns_small h key value :
  reachable h →
  actualBucketLength h ≤ 2 ^ 30 →
  nodeCount h < 2 ^ 30 →
  ∃ h', Insert h key value = Ok h'.
Proof.
  intros Hwf%reachable_wf Hcap Hn.
  pose proof (Insert_returns h key value Hwf) as Hret.
  pose proof (λ p, InsertFuel_no_panic 32 h key value p Hwf (or_intror Hcap) Hn) as Hno.
  fold (Insert h key value) in Hno.
  destruct (Insert h key value) as [h'|p|]; [eauto|by destruct (Hno p)|done].
Qed.

End Returns.

(** ** The properties of the specification *)

Section Claims.
Context {K V : Type} `{!GobEncoder K}.
Implicit Types (h : HashTable K V) (e : Entry K V) (key : K) (value : V).

(** C1. Insert/Get round-trip: on every table that the public
    operations can build, as soon as [Insert key value] has returned,
    [Get key] returns [value], whichever path the insertion took
    (empty bucket, overwritten node, appended node, resize). *)
Theorem C1_insert_get_roundtrip h key value h' :
  reachable h →
  Insert h key value = Ok h' →
  Get h' key = Ok (value, h').
Proof.
  intros Hwf%reachable_wf Hrun.
  destruct (Insert_spec h key value h' Hwf Hrun) as (Hwf' & _ & Hst & _).
  apply (Get_stored h' key (mkEntry key value)); [done|]. apply Hst. by left.
Qed.

(** C2. Growth trigger: when the insertion leaves more occupied
    buckets than half the capacity, the [Insert] that returns has at
    least doubled the capacity, and every [Get] that succeeded just
    before the resize succeeds with the same value after it. *)
Theorem C2_growth_preserves_mappings h key value h1 h' :
  reachable h →
  beforeLoadTest h key value = Ok h1 →
  isFull h1 = true →
  Insert h key value = Ok h' →
  2 * actualBucketLength h ≤ actualBucketLength h' ∧
  ∀ key0 value0 h2,
    Get h1 key0 = Ok (value0, h2) → Get h' key0 = Ok (value0, h').
Proof.
  intros Hwf%reachable_wf Hplaced Hfull Hrun.
  destruct (beforeLoadTest_wf h key value Hwf)
    as (h1' & Hplaced' & Hwf1 & Hcap1 & Hst1 & _).
  assert (h1' = h1) as -> by congruence.
  unfold Insert in Hrun. rewrite InsertFuel_unfold, Hplaced in Hrun.
  simpl in Hrun. rewrite Hfull in Hrun.
  assert (allL h1 ≠ []) as Hne.
  { intros Hnil. assert (stored h1 (hashOf key) (mkEntry key value)) as Hin
      by (apply Hst1; by left).
    unfold stored in Hin. rewrite Hnil in Hin. by apply elem_of_nil in Hin. }
  destruct (Resize_spec (InsertFuel 31) (InsertFuel_spec 31) (InsertFuel_zero 31)
              h1 h' Hwf1 Hne Hrun) as (Hwf' & Hcap' & Hst' & _).
  split; [lia|]. intros key0 value0 h2 HG.
  destruct (Get_Ok_inv h1 key0 value0 h2 Hwf1 HG) as (_ & e & Hin & <-).
  apply Get_stored; [done|]. by apply Hst'.
Qed.

(** C4. [Delete key] empties the whole bucket slot that [key] selects,
    so that no key of that bucket is found any more, decrements the
    32-bit counter of occupied buckets by one (from 0 it wraps to
    4294967295) and leaves the item count alone. *)
Theorem C4_delete_clears_bucket h key :
  reachable h →
  let index := Z.to_nat (hashOf key mod actualBucketLength h) in
  ∃ h',
    Delete h key = Ok h' ∧
    buckets h' = <[index := None]> (buckets h) ∧
    buckets h' !! index = Some None ∧
    actualBucketSize h' = wrap32 (actualBucketSize h - 1) ∧
    actualBucketSize h' =
      (if actualBucketSize h =? 0 then 4294967295 else actualBucketSize h - 1) ∧
    Size h' = Size h ∧
    ∀ key0,
      hashOf key0 mod actualBucketLength h = hashOf key mod actualBucketLength h →
      Get h' key0 = Panic (KeyNotFound key0).
Proof.
  intros Hwf%reachable_wf index.
  destruct (Delete_wf h key Hwf) as (h' & Hdel & Hwf' & Hbs & Hcap & Hocc & Hsize).
  assert (buckets h' !! index = Some None) as Hnone.
  { rewrite Hbs. apply list_lookup_insert_Some. left.
    split_and!; try done. by apply wf_index_bounds. }
  exists h'. split_and!; try done.
  { rewrite Hocc. destruct (wf_counters h Hwf) as [Hrange _].
    destruct (Z.eqb_spec (actualBucketSize h) 0) as [->|Hpos]; [done|].
    unfold wrap32. apply Z.mod_small. lia. }
  intros key0 Hsame. apply Get_not_stored; [done|].
  intros e (b & Hb & Hin)%stored_home; [|done].
  rewrite Hcap, Hsame in Hb. fold index in Hb.
  assert (b = None) as -> by congruence. by apply elem_of_nil in Hin.
Qed.

(** C5. Missing key: [Get] on the empty table, and on any table for a
    key such that no node of its bucket has its hash, panics with
    KeyNotFound; it does not return a value. *)
Theorem C5_get_missing_key_panics h key :
  reachable h →
  neverInserted h key = true →
  Get (@NewHashTable K V) key = Panic (KeyNotFound key) ∧
  Get h key = Panic (KeyNotFound key) ∧
  ∀ value h', Get h key ≠ Ok (value, h').
Proof.
  intros Hwf%reachable_wf Hnever.
  assert (Get h key = Panic (KeyNotFound key)) as HG
    by eauto using Get_not_stored, neverInserted_not_stored.
  split_and!; [|done|by rewrite HG].
  apply Get_not_stored; [apply NewHashTable_wf|].
  intros e Hin. unfold stored, allL in Hin. simpl in Hin.
  by apply elem_of_nil in Hin.
Qed.

(** C10. [Hash] is repeatable: on every table that the public
    operations can build, a call returns the hash of the key, which
    depends on the key only, and the bucket index, which depends on
    the hash and on the capacity only; it leaves the hasher reset and
    the table unchanged, so calling it again returns the same pair. *)
Theorem C10_hash_repeatable h key hs index h1 :
  reachable h →
  Hash h key = Ok (hs, index, h1) →
  Hash h1 key = Ok (hs, index, h1) ∧
  hs = hashOf key ∧
  index = hs mod actualBucketLength h ∧
  hasher h1 = fnv.offset64 ∧
  buckets h1 = buckets h ∧
  actualBucketLength h1 = actualBucketLength h ∧
  actualBucketSize h1 = actualBucketSize h ∧
  sizeItems h1 = sizeItems h.
Proof.
  intros Hwf%reachable_wf Hrun. rewrite Hash_wf in Hrun by done.
  injection Hrun as <- <- <-. rewrite Hash_wf by done.
  split_and!; try done. apply Hwf.
Qed.

(** The reset is what makes the second call independent of the first:
    whatever the state of the hasher before a call, it is the initial
    state after it, and nothing else of the table has changed. *)
Lemma Hash_resets_hasher h key hs index h1 :
  Hash h key = Ok (hs, index, h1) →
  h1 = set_hasher fnv.offset64 h ∧
  Hash h1 key = Ok (hashOf key, wrap32 (hashOf key mod actualBucketLength h), h1).
Proof.
  unfold Hash, generateHash, generateIndex. simpl.
  destruct (actualBucketLength h =? 0) eqn:Hcap; [done|]. simpl.
  intros [= <- <- <-]. simpl. by rewrite Hcap.
Qed.

Lemma mod_2_cases (z : Z) : z mod 2 = 0 ∨ z mod 2 = 1.
Proof. pose proof (Z.mod_pos_bound z 2). lia. Qed.

(** The first insertion into the fresh table. *)
Lemma Insert_fresh key value :
  ∃ h1,
    Insert NewHashTable key value = Ok h1 ∧
    sizeItems h1 = 1 ∧ actualBucketSize h1 = 1 ∧ actualBucketLength h1 = 2 ∧
    buckets h1 !! Z.to_nat (hashOf key mod 2) =
      Some (Some (mkNode (mkEntry key value) (hashOf key) None)) ∧
    nodeCount h1 = 1.
Proof.
  unfold Insert. rewrite InsertFuel_unfold. unfold beforeLoadTest.
  rewrite Hash_wf by apply NewHashTable_wf. simpl.
  destruct (mod_2_cases (hashOf key)) as [-> | ->]; simpl;
    eexists; split_and!; done.
Qed.

(** C3. Overwrite: on the fresh table, [Insert key v1] followed by
    [Insert key v2] leaves one item, and [Get key] returns [v2]. *)
Theorem C3_overwrite_keeps_size key (v1 v2 : V) :
  ∃ h1 h2,
    Insert NewHashTable key v1 = Ok h1 ∧
    Insert h1 key v2 = Ok h2 ∧
    Size h2 = 1 ∧
    Get h2 key = Ok (v2, h2).
Proof.
  destruct (Insert_fresh key v1) as (h1 & Hi1 & Hs1 & Ho1 & Hc1 & Hb1 & _).
  destruct (Insert_spec _ _ _ _ NewHashTable_wf Hi1) as (Hwf1 & _).
  assert (∃ h2, Insert h1 key v2 = Ok h2 ∧ sizeItems h2 = 1) as (h2 & Hi2 & Hs2).
  { unfold Insert. rewrite InsertFuel_unfold. unfold beforeLoadTest.
    rewrite Hash_wf by done. simpl. rewrite Hc1.
    unfold placeNode, bucketAt. rewrite Hb1. simpl.
    unfold HandleColision. simpl. rewrite Z.eqb_refl. simpl.
    unfold isFull. simpl. rewrite Hc1, Ho1. simpl. eauto. }
  exists h1, h2. split_and!; try done.
  destruct (Insert_spec h1 key v2 h2 Hwf1 Hi2) as (Hwf2 & _ & Hst2 & _).
  apply (Get_stored h2 key (mkEntry key v2)); [done|]. apply Hst2. by left.
Qed.

(** C6. Invariant 4 does not survive [Delete]: after [Insert key value]
    on the fresh table and [Delete key], the item count is still 1
    while no node is left in any chain. *)
Theorem C6_delete_breaks_item_count key value :
  ∃ h1 h2,
    Insert NewHashTable key value = Ok h1 ∧
    Delete h1 key = Ok h2 ∧
    countsNodes h1 ∧
    Size h2 = 1 ∧
    nodeCount h2 = 0 ∧
    ¬ countsNodes h2.
Proof.
  destruct (Insert_fresh key value) as (h1 & Hi1 & Hs1 & Ho1 & Hc1 & Hb1 & Hn1).
  destruct (Insert_spec _ _ _ _ NewHashTable_wf Hi1) as (Hwf1 & _).
  destruct (Delete_wf h1 key Hwf1) as (h2 & Hdel & Hwf2 & Hbs & Hcap & Hocc & Hsize).
  assert (nodeCount h2 = 0) as Hn2.
  { pose proof (allL_insert_length (buckets h1) _ _ None Hb1) as Hlen.
    rewrite Hc1 in Hbs. unfold nodeCount, allL in *. rewrite Hbs.
    simpl in Hlen. lia. }
  exists h1, h2. unfold countsNodes, Size. rewrite Hsize, Hs1, Hn1, Hn2.
  split_and!; done.
Qed.

(** The other operations keep Invariant 4 (modulo the width of the
    counter). *)
Lemma Insert_countsNodes h key value h' :
  reachable h → countsNodes h → Insert h key value = Ok h' → countsNodes h'.
Proof.
  intros Hwf%reachable_wf Hcnt Hrun.
  destruct (Insert_spec h key value h' Hwf Hrun) as (_ & _ & _ & Hcnt'). auto.
Qed.

Lemma Get_countsNodes h key value h' :
  reachable h → countsNodes h → Get h key = Ok (value, h') → countsNodes h'.
Proof.
  intros Hwf%reachable_wf Hcnt Hrun.
  by destruct (Get_Ok_inv h key value h' Hwf Hrun) as [-> _].
Qed.

(** The entries that [Iter] sends are those of the nodes, in bucket
    order and then chain order. *)
Lemma Iter_allL h : Iter h = (allL h).*2.
Proof.
  unfold Iter, allL. induction (buckets h) as [|b bs IH]; [done|].
  rewrite (bind_cons bucketL), fmap_app. simpl. rewrite IH. f_equal.
  destruct b as [n|]; [apply iterChain_chainL|done].
Qed.

Lemma insertAll_stored (kvs : list (K * V)) h :
  NoDup ((λ kv, hashOf kv.1) <$> kvs) →
  insertAll NewHashTable kvs = Ok h →
  wf h ∧
  ∀ hs e, stored h hs e ↔
          (hs, e) ∈ (λ kv, (hashOf kv.1, mkEntry kv.1 kv.2)) <$> kvs.
Proof.
  revert h. induction kvs as [|[key value] kvs IH] using rev_ind; intros h Hnd Hrun.
  - injection Hrun as <-. split; [apply NewHashTable_wf|].
    intros hs e. unfold stored, allL. simpl. done.
  - rewrite insertAll_snoc in Hrun.
    destruct (insertAll NewHashTable kvs) as [h0| |]; [|done..]. simpl in Hrun.
    rewrite fmap_app in Hnd. apply NoDup_app in Hnd as (Hnd & Hfresh & _).
    destruct (IH h0 Hnd eq_refl) as [Hwf0 Hst0].
    destruct (Insert_spec h0 key value h Hwf0 Hrun) as (Hwf & _ & Hst & _).
    split; [done|]. intros hs e.
    rewrite Hst, Hst0, fmap_app, elem_of_app. simpl.
    rewrite list_elem_of_singleton. split; [tauto|].
    intros [Hin|?]; [|by left]. right. split; [|done]. intros ->.
    apply (Hfresh (hashOf key)); [|by left].
    apply list_elem_of_fmap in Hin as (kv & [= -> _] & Hin).
    by apply (list_elem_of_fmap_2 (λ kv, hashOf kv.1)).
Qed.

(** C7. Traversal completeness: after the insertion of [N] keys with
    pairwise different hashes into the fresh table, [Iter] yields the
    entries of the nodes in bucket order and then chain order; they
    are the [N] inserted pairs, each exactly once. *)
Theorem C7_iter_yields_each_entry_once (kvs : list (K * V)) h :
  NoDup ((λ kv, hashOf kv.1) <$> kvs) →
  insertAll NewHashTable kvs = Ok h →
  Iter h = buckets h ≫= (λ b, (bucketL b).*2) ∧
  Iter h ≡ₚ (λ kv, mkEntry kv.1 kv.2) <$> kvs ∧
  length (Iter h) = length kvs ∧
  NoDup (Iter h).
Proof.
  intros Hnd Hrun. destruct (insertAll_stored kvs h Hnd Hrun) as [Hwf Hst].
  assert (NoDup ((λ kv, mkEntry kv.1 kv.2) <$> kvs)) as Hnd'.
  { apply (NoDup_fmap_1 (λ e, hashOf (Key e))). by rewrite <-list_fmap_compose. }
  assert (allL h ≡ₚ (λ kv, (hashOf kv.1, mkEntry kv.1 kv.2)) <$> kvs) as Hperm.
  { apply NoDup_Permutation.
    - apply (NoDup_fmap_1 fst), NoDup_allL_hashes, Hwf.
    - apply (NoDup_fmap_1 fst). by rewrite <-list_fmap_compose.
    - intros [hs e]. apply Hst. }
  assert (Iter h ≡ₚ (λ kv, mkEntry kv.1 kv.2) <$> kvs) as Hiter.
  { rewrite Iter_allL, Hperm, <-list_fmap_compose. done. }
  split_and!; [|done|by rewrite Hiter, length_fmap|by rewrite Hiter].
  rewrite Iter_allL. unfold allL. induction (buckets h) as [|b bs IH]; [done|].
  by rewrite !bind_cons, fmap_app, IH.
Qed.

(** C9 as the code has it.  When no bucket is counted as occupied, on
    the fresh table for instance, [Delete] wraps the 32-bit counter to
    4294967295, which exceeds the capacity and makes [isFull] hold.
    The next [Insert] triggers a [Resize] exactly when the bucket of
    its key holds a node; into an empty bucket the increment wraps the
    counter back to 0 and the insertion returns without any resize. *)
Theorem C9_delete_wraps_occupied_counter h key :
  reachable h →
  actualBucketSize h = 0 →
  ∃ h1,
    Delete h key = Ok h1 ∧
    actualBucketSize h1 = 4294967295 ∧
    actualBucketLength h1 < actualBucketSize h1 ∧
    isFull h1 = true ∧
    ∀ key0 value,
      match buckets h1 !! Z.to_nat (hashOf key0 mod actualBucketLength h1) with
      | Some (Some _) => triggersResize h1 key0 value = true
      | _ =>
          triggersResize h1 key0 value = false ∧
          ∃ h2, Insert h1 key0 value = Ok h2 ∧
                actualBucketSize h2 = 0 ∧
                actualBucketLength h2 = actualBucketLength h1
      end.
Proof.
  intros Hwf%reachable_wf Hzero.
  destruct (Delete_wf h key Hwf) as (h1 & Hdel & Hwf1 & Hbs & Hcap & Hocc & Hsize).
  rewrite Hzero in Hocc. change (wrap32 (0 - 1)) with 4294967295 in Hocc.
  pose proof (wf_cap_bounds h1 Hwf1) as Hc.
  pose proof (wf_cap_max h1 Hwf1) as Hmax.
  assert (Z.shiftr (actualBucketLength h1) 1 < 4294967295) as Hhalf.
  { rewrite Z.shiftr_div_pow2 by lia. change (2 ^ 1) with 2.
    change (2 ^ 32) with 4294967296 in Hc.
    apply Z.div_lt_upper_bound; lia. }
  exists h1. split_and!; try done;
    [rewrite Hocc; lia|unfold isFull; rewrite Hocc; by apply Z.ltb_lt|].
  intros key0 value.
  destruct (beforeLoadTest_wf h1 key0 value Hwf1) as (h2 & Hplaced & _ & Hcap2 & _).
  unfold triggersResize, Insert. rewrite InsertFuel_unfold, Hplaced. simpl.
  unfold beforeLoadTest in Hplaced. rewrite Hash_wf in Hplaced by done.
  simpl in Hplaced. unfold placeNode, bucketAt in Hplaced.
  destruct (bucketAt_wf h1 (hashOf key0) Hwf1) as [b Hb]. rewrite Hb in *.
  simpl in Hplaced. destruct b as [n|].
  - unfold HandleColision in Hplaced.
    destruct (walkChain _ n) as [c linked]. unfold isFull.
    destruct linked; injection Hplaced as <-; simpl; rewrite Hocc;
      by apply Z.ltb_lt.
  - unfold setBucketAt in Hplaced.
    rewrite decide_True in Hplaced by by apply wf_index_bounds.
    simpl in Hplaced. injection Hplaced as <-.
    unfold isFull. simpl. rewrite Hocc. change (wrap32 (4294967295 + 1)) with 0.
    assert (0 ≤ Z.shiftr (actualBucketLength h1) 1) by (apply Z.shiftr_nonneg; lia).
    destruct (Z.ltb_spec (Z.shiftr (actualBucketLength h1) 1) 0); [lia|].
    split; [done|]. eexists. split_and!; done.
Qed.

End Claims.

(** ** The scenarios of the test suite, on string keys *)

Section Scenarios.
Local Open Scope string_scope.

Lemma oneTable_reachable : reachable oneTable.
Proof. apply (reach_Insert NewStringTable "0" "bar"); [apply reach_New|]. by vm_compute. Qed.

Lemma fooTable_reachable : reachable fooTable.
Proof. apply (reach_Insert NewStringTable "foo" "bar"); [apply reach_New|]. by vm_compute. Qed.

(** [TestInsertDuplicatedElement] and [TestGetElement]. *)
Example foo_bar_baz :
  ∃ h, Insert fooTable "foo" "baz" = Ok h ∧ Size h = 1 ∧ Get h "foo" = Ok ("baz", h).
Proof. exists (returned (Insert fooTable "foo" "baz")). split_and!; by vm_compute. Qed.

Lemma C1_insert_get_roundtrip_witness :
  reachable oneTable ∧
  Insert oneTable "1" "bar" = Ok twoTable ∧
  Get twoTable "1" = Ok ("bar", twoTable).
Proof.
  assert (Insert oneTable "1" "bar" = Ok twoTable) as Hrun by (by vm_compute).
  split_and!; [apply oneTable_reachable|done|].
  exact (C1_insert_get_roundtrip oneTable "1" "bar" twoTable oneTable_reachable Hrun).
Defined.

Lemma C2_growth_preserves_mappings_witness :
  reachable oneTable ∧
  beforeLoadTest oneTable "1" "bar" = Ok placedTable ∧
  isFull placedTable = true ∧
  Insert oneTable "1" "bar" = Ok twoTable ∧
  2 * actualBucketLength oneTable ≤ actualBucketLength twoTable ∧
  ∀ key0 value0 h2,
    Get placedTable key0 = Ok (value0, h2) → Get twoTable key0 = Ok (value0, twoTable).
Proof.
  assert (beforeLoadTest oneTable "1" "bar" = Ok placedTable) as Hplaced
    by (by vm_compute).
  assert (isFull placedTable = true) as Hfull by (by vm_compute).
  assert (Insert oneTable "1" "bar" = Ok twoTable) as Hrun by (by vm_compute).
  destruct (C2_growth_preserves_mappings oneTable "1" "bar" placedTable twoTable
              oneTable_reachable Hplaced Hfull Hrun) as [Hcap Hget].
  split_and!; [apply oneTable_reachable|done..].
Defined.

Lemma C4_delete_clears_bucket_witness :
  reachable fooTable ∧
  ∃ h',
    Delete fooTable "foo" = Ok h' ∧
    actualBucketSize h' = wrap32 (actualBucketSize fooTable - 1) ∧
    Size h' = Size fooTable ∧
    Get h' "foo" = Panic (KeyNotFound "foo").
Proof.
  split; [apply fooTable_reachable|].
  destruct (C4_delete_clears_bucket fooTable "foo" fooTable_reachable)
    as (h' & Hdel & _ & _ & Hocc & _ & Hsize & Hget).
  exists h'. split_and!; [done..|]. by apply Hget.
Defined.

Lemma C5_get_missing_key_panics_witness :
  reachable fooTable ∧
  neverInserted fooTable "baz" = true ∧
  Get fooTable "baz" = Panic (KeyNotFound "baz").
Proof.
  assert (neverInserted fooTable "baz" = true) as Hnever by (by vm_compute).
  split_and!; [apply fooTable_reachable|done|].
  exact (proj1 (proj2 (C5_get_missing_key_panics fooTable "baz"
                         fooTable_reachable Hnever))).
Defined.

Lemma C7_iter_yields_each_entry_once_witness :
  NoDup ((λ kv, hashOf kv.1) <$> bars ["0"; "1"; "2"]) ∧
  insertAll NewStringTable (bars ["0"; "1"; "2"]) = Ok threeTable ∧
  length (Iter threeTable) = 3%nat ∧
  Iter threeTable ≡ₚ (λ kv, mkEntry kv.1 kv.2) <$> bars ["0"; "1"; "2"].
Proof.
  assert (NoDup ((λ kv, hashOf kv.1) <$> bars ["0"; "1"; "2"])) as Hnd
    by (apply (bool_decide_unpack _); by vm_compute).
  assert (insertAll NewStringTable (bars ["0"; "1"; "2"]) = Ok threeTable) as Hrun
    by (by vm_compute).
  destruct (C7_iter_yields_each_entry_once (bars ["0"; "1"; "2"]) threeTable Hnd Hrun)
    as (_ & Hperm & Hlen & _).
  split_and!; done.
Defined.

(** C8. The growth test of the suite: after the insertion of the 20
    keys ["0"] to ["19"] into the fresh table, of capacity 2, the item
    count is 20 and the capacity is at least 32. *)
Theorem C8_twenty_keys_grow_table :
  actualBucketLength NewStringTable = 2 ∧
  insertAll NewStringTable (bars keys20) = Ok table20 ∧
  Size table20 = 20 ∧
  32 ≤ actualBucketLength table20.
Proof. split_and!; by vm_compute. Qed.

(** C9 fails as stated: on the fresh table [Delete] wraps the counter
    of occupied buckets to 4294967295 and [isFull] holds, but the next
    [Insert] finds an empty bucket, wraps the counter back to 0 and
    returns without any resize: the capacity is still 2. *)
Lemma C9_next_insert_does_not_resize :
  Delete NewStringTable "foo" = Ok deletedTable ∧
  actualBucketSize deletedTable = 4294967295 ∧
  isFull deletedTable = true ∧
  triggersResize deletedTable "foo" "bar" = false ∧
  Insert deletedTable "foo" "bar" = Ok reinsertedTable ∧
  actualBucketSize reinsertedTable = 0 ∧
  actualBucketLength reinsertedTable = 2.
Proof. split_and!; by vm_compute. Qed.

Lemma C9_delete_wraps_occupied_counter_witness :
  reachable NewStringTable ∧
  actualBucketSize NewStringTable = 0 ∧
  ∃ h1,
    Delete NewStringTable "foo" = Ok h1 ∧
    actualBucketSize h1 = 4294967295 ∧
    isFull h1 = true.
Proof.
  split_and!; [apply reach_New|done|].
  destruct (C9_delete_wraps_occupied_counter NewStringTable "foo" reach_New eq_refl)
    as (h1 & Hdel & Hocc & _ & Hfull & _).
  by exists h1.
Defined.

Lemma C10_hash_repeatable_witness :
  reachable fooTable ∧
  Hash fooTable "foo" = Ok (hashOf "foo", hashOf "foo" mod 2, fooTable) ∧
  Hash fooTable "foo" = Ok (18425028964398266980, 0, fooTable).
Proof.
  assert (Hash fooTable "foo" = Ok (hashOf "foo", hashOf "foo" mod 2, fooTable))
    as Hrun by (by vm_compute).
  split_and!; [apply fooTable_reachable|done|].
  destruct (C10_hash_repeatable fooTable "foo" _ _ _ fooTable_reachable Hrun)
    as (Hagain & _).
  rewrite Hagain. by vm_compute.
Defined.

End Scenarios.

(** ** Further properties of the table *)

Section More.
Context {K V : Type} `{!GobEncoder K}.
Implicit Types (h : HashTable K V) (e : Entry K V) (key : K) (value : V).

Lemma reachable_capacity_min h : reachable h → 2 ≤ actualBucketLength h.
Proof.
  induction 1 as [|h key value h' Hr IH Hrun|h key value h' Hr IH Hrun
                  |h key h' Hr IH Hrun|h key hs index h' Hr IH Hrun].
  - done.
  - destruct (Insert_spec h key value h' (reachable_wf h Hr) Hrun) as (_ & ? & _). lia.
  - by destruct (Get_Ok_inv h key value h' (reachable_wf h Hr) Hrun) as [-> _].
  - destruct (Delete_wf h key (reachable_wf h Hr)) as (h2 & Hdel & _ & _ & Hcap & _).
    assert (h2 = h') as <- by congruence. lia.
  - rewrite Hash_wf in Hrun by by apply reachable_wf. by injection Hrun as _ _ <-.
Qed.

(** Shape of the tables that the public operations build: the capacity
    is a power of two from 2 to 2^31 and is the number of bucket slots;
    every node sits in the bucket that its stored hash selects, its
    stored hash is the hash of its key, and no two nodes of a chain
    have the same hash. *)
Theorem reachable_table_shape h :
  reachable h →
  (∃ x : nat, (1 ≤ x ≤ 31)%nat ∧ actualBucketLength h = 2 ^ Z.of_nat x) ∧
  Z.of_nat (length (buckets h)) = actualBucketLength h ∧
  ∀ (i : nat) (b : option (Node K V)),
    buckets h !! i = Some b →
    NoDup (bucketL b).*1 ∧
    ∀ hs e, (hs, e) ∈ bucketL b →
            hs mod actualBucketLength h = Z.of_nat i ∧ hs = hashOf (Key e).
Proof.
  intros Hr. pose proof (reachable_wf h Hr) as Hwf.
  pose proof (reachable_capacity_min h Hr) as Hmin. split_and!.
  - destruct (wf_cap h Hwf) as (x & Hx & Hcap). exists x. split; [|done].
    destruct x; [rewrite Hcap in Hmin; simpl in Hmin; lia|lia].
  - apply Hwf.
  - intros i b Hi. destruct (wf_chain h Hwf i b Hi) as [Hnd Hall].
    split; [done|]. intros hs e Hin. rewrite Forall_forall in Hall.
    apply (Hall (hs, e) Hin).
Qed.

(** No operation shrinks the table: [Insert] keeps the capacity or at
    least doubles it, [Delete] and [Get] keep it. *)
Theorem capacity_never_shrinks h key value :
  reachable h →
  (∀ h', Insert h key value = Ok h' →
         if triggersResize h key value
         then 2 * actualBucketLength h ≤ actualBucketLength h'
         else actualBucketLength h' = actualBucketLength h) ∧
  (∀ h', Delete h key = Ok h' → actualBucketLength h' = actualBucketLength h) ∧
  (∀ value0 h', Get h key = Ok (value0, h') →
                actualBucketLength h' = actualBucketLength h).
Proof.
  intros Hwf%reachable_wf. split_and!.
  - intros h' Hrun. unfold triggersResize.
    destruct (beforeLoadTest_wf h key value Hwf)
      as (h1 & Hplaced & Hwf1 & Hcap1 & Hst1 & _).
    unfold Insert in Hrun. rewrite InsertFuel_unfold, Hplaced in Hrun.
    rewrite Hplaced. simpl in Hrun. destruct (isFull h1).
    + assert (allL h1 ≠ []) as Hne.
      { intros Hnil. assert (stored h1 (hashOf key) (mkEntry key value)) as Hin
          by (apply Hst1; by left).
        unfold stored in Hin. rewrite Hnil in Hin. by apply elem_of_nil in Hin. }
      destruct (Resize_spec (InsertFuel 31) (InsertFuel_spec 31) (InsertFuel_zero 31)
                  h1 h' Hwf1 Hne Hrun) as (_ & Hcap' & _). lia.
    + by injection Hrun as <-.
  - intros h' Hrun.
    destruct (Delete_wf h key Hwf) as (h2 & Hdel & _ & _ & Hcap & _). congruence.
  - intros value0 h' Hrun.
    by destruct (Get_Ok_inv h key value0 h' Hwf Hrun) as [-> _].
Qed.

(** On a table that the public operations have built, [Hash] returns
    an index of the bucket array and leaves the table as it is,
    [Delete] returns, [Get] returns or panics with KeyNotFound for its
    key and leaves the table as it is, and [Insert] returns or panics
    on a division by zero; no call indexes the bucket array out of
    range. *)
Theorem reachable_panics h key value :
  reachable h →
  (∃ hs index, Hash h key = Ok (hs, index, h) ∧
               0 ≤ index < Z.of_nat (length (buckets h))) ∧
  (∃ h', Delete h key = Ok h') ∧
  (GetValue h key = Panic (KeyNotFound key) ∨ ∃ value0, GetValue h key = Ok value0) ∧
  (Insert h key value = Panic DivideByZero ∨ ∃ h', Insert h key value = Ok h') ∧
  (∀ value0 h', Get h key = Ok (value0, h') → h' = h).
Proof.
  intros Hwf%reachable_wf. split_and!.
  - rewrite Hash_wf by done. eexists _, _. split; [done|].
    pose proof (wf_cap_bounds h Hwf).
    pose proof (Z.mod_pos_bound (hashOf key) (actualBucketLength h)).
    rewrite (wf_len h Hwf). lia.
  - destruct (Delete_wf h key Hwf) as (h' & Hdel & _). eauto.
  - destruct (bucketAt_wf h (hashOf key) Hwf) as [b Hb]. unfold GetValue.
    rewrite (Get_lookupL h key b) by done. destruct (lookupL _ _); eauto.
  - pose proof (Insert_returns h key value Hwf) as Hret.
    destruct (Insert h key value) as [h'|p|]; simpl in Hret; subst; eauto.
    done.
  - intros value0 h' Hrun. by destruct (Get_Ok_inv h key value0 h' Hwf Hrun).
Qed.

Lemma reinsertAll_last (insert : HashTable K V → K → V → result K (HashTable K V))
    (l : list (Z * Entry K V)) r h' :
  l ≠ [] → reinsertAll insert l r = Ok h' →
  ∃ h0 key value, insert h0 key value = Ok h'.
Proof.
  destruct l as [|p l _] using rev_ind; [done|]. intros _.
  rewrite reinsertAll_app, reinsertAll_cons. simpl.
  destruct (reinsertAll insert l r) as [h0| |]; simpl; [eauto|done..].
Qed.

Lemma InsertFuel_not_full fuel h key value h' :
  InsertFuel fuel h key value = Ok h' → isFull h' = false.
Proof.
  revert h key value h'. induction fuel as [|fuel IH]; intros h key value h';
    rewrite InsertFuel_unfold;
    destruct (beforeLoadTest h key value) as [h1| |]; simpl; try done;
    destruct (isFull h1) eqn:Hfull; try done; try (by intros [= <-]).
  unfold Resize. rewrite reinsertBucket_all.
  set (l := _ ≫= bucketL). destruct (decide (l = [])) as [->|Hne].
  - intros [= <-]. unfold isFull, resetBucket. simpl. apply Z.ltb_ge.
    apply Z.shiftr_nonneg. apply Z.mod_pos_bound. done.
  - intros (h0 & key0 & value0 & Hlast)%reinsertAll_last; [|done]. by eapply IH.
Qed.

(** Whatever the table, an [Insert] that returns leaves it below the
    load-factor threshold: the counter of occupied buckets is at most
    half the capacity. *)
Theorem Insert_leaves_room h key value h' :
  Insert h key value = Ok h' →
  isFull h' = false ∧ actualBucketSize h' ≤ actualBucketLength h' / 2.
Proof.
  intros Hfull%InsertFuel_not_full. split; [done|].
  unfold isFull in Hfull. apply Z.ltb_ge in Hfull.
  by rewrite Z.shiftr_div_pow2 in Hfull.
Qed.

(** *** What [Get] sees *)

Lemma GetValue_stored h key e :
  wf h → stored h (hashOf key) e → GetValue h key = Ok (Value e).
Proof. intros Hwf Hin. unfold GetValue. by rewrite (Get_stored h key e). Qed.

Lemma GetValue_not_stored h key :
  wf h → (∀ e, ¬ stored h (hashOf key) e) → GetValue h key = Panic (KeyNotFound key).
Proof. intros Hwf Hnone. unfold GetValue. by rewrite Get_not_stored. Qed.

Lemma stored_dec h hs :
  wf h → (∃ e, stored h hs e) ∨ (∀ e, ¬ stored h hs e).
Proof.
  intros Hwf. destruct (bucketAt_wf h hs Hwf) as [b Hb].
  destruct (wf_chain h Hwf _ b Hb) as [Hnd _].
  destruct (lookupL hs (bucketL b)) as [e|] eqn:Hl.
  - left. exists e. apply stored_home; [done|]. exists b. split; [done|].
    by apply lookupL_Some.
  - right. intros e (b' & Hb' & Hin)%stored_home; [|done].
    assert (b' = b) as -> by congruence.
    apply lookupL_None in Hl. apply Hl. by apply (list_elem_of_fmap_2 fst _ (hs, e)).
Qed.

Lemma GetValue_ext h h' key :
  wf h → wf h' →
  (∀ e, stored h' (hashOf key) e ↔ stored h (hashOf key) e) →
  GetValue h' key = GetValue h key.
Proof.
  intros Hwf Hwf' Hsame. destruct (stored_dec h (hashOf key) Hwf) as [[e Hin]|Hnone].
  - rewrite (GetValue_stored h key e), (GetValue_stored h' key e); try done.
    by apply Hsame.
  - rewrite !GetValue_not_stored; try done. intros e Hin%Hsame. by apply (Hnone e).
Qed.

Lemma GetValue_Insert_other h key value h' key0 :
  wf h →
  Insert h key value = Ok h' →
  hashOf key0 ≠ hashOf key →
  GetValue h' key0 = GetValue h key0.
Proof.
  intros Hwf Hrun Hne.
  destruct (Insert_spec h key value h' Hwf Hrun) as (Hwf' & _ & Hst & _).
  apply GetValue_ext; try done. intros e. rewrite Hst. split; [|tauto].
  intros [[= ? _]|[_ ?]]; done.
Qed.

(** [Insert] does not disturb the other keys: a key whose hash differs
    from the hash of the inserted key is found with the same value, or
    is missing, after the call as before it, resize or not. *)
Theorem Insert_keeps_other_keys h key value h' key0 :
  reachable h →
  Insert h key value = Ok h' →
  hashOf key0 ≠ hashOf key →
  GetValue h' key0 = GetValue h key0.
Proof. intros Hwf%reachable_wf. by apply GetValue_Insert_other. Qed.

Lemma nodeCount_same_hashes h h' :
  wf h → wf h' →
  (∀ hs, (∃ e, stored h' hs e) ↔ (∃ e, stored h hs e)) →
  nodeCount h' = nodeCount h.
Proof.
  intros Hwf Hwf' Hsame. unfold nodeCount. f_equal.
  rewrite <-(length_fmap fst (allL h')), <-(length_fmap fst (allL h)).
  apply Permutation_length, NoDup_Permutation; try by apply NoDup_allL_hashes.
  intros hs. rewrite !list_elem_of_fmap. split.
  - intros ([hs' e] & -> & Hin). destruct (proj1 (Hsame hs') (ex_intro _ e Hin)) as [e' Hin'].
    by exists (hs', e').
  - intros ([hs' e] & -> & Hin). destruct (proj2 (Hsame hs') (ex_intro _ e Hin)) as [e' Hin'].
    by exists (hs', e').
Qed.

(** Keys are told apart by their hash only: when a second key with the
    hash of a first one is inserted, it takes the node of the first
    key, whose entry is lost; [Get] of the first key returns the value
    of the second and the number of nodes does not change. *)
Theorem colliding_key_overwrites h key1 value1 key2 value2 h1 h2 :
  reachable h →
  hashOf key1 = hashOf key2 →
  Insert h key1 value1 = Ok h1 →
  Insert h1 key2 value2 = Ok h2 →
  GetValue h2 key1 = Ok value2 ∧
  nodeCount h2 = nodeCount h1 ∧
  ∀ e, e ∈ Iter h2 → hashOf (Key e) = hashOf key1 → e = mkEntry key2 value2.
Proof.
  intros Hwf%reachable_wf Hcoll Hrun1 Hrun2.
  destruct (Insert_spec h key1 value1 h1 Hwf Hrun1) as (Hwf1 & _ & Hst1 & _).
  destruct (Insert_spec h1 key2 value2 h2 Hwf1 Hrun2) as (Hwf2 & _ & Hst2 & _).
  split_and!.
  - rewrite (GetValue_stored h2 key1 (mkEntry key2 value2)); [done..|].
    rewrite Hcoll. apply Hst2. by left.
  - apply nodeCount_same_hashes; try done. intros hs. split.
    + intros [e [[= -> ->]|[_ Hin]]%Hst2]; [|eauto].
      exists (mkEntry key1 value1). rewrite <-Hcoll. apply Hst1. by left.
    + intros [e Hin]. destruct (decide (hs = hashOf key2)) as [->|Hne].
      * exists (mkEntry key2 value2). apply Hst2. by left.
      * exists e. apply Hst2. by right.
  - intros e Hin Hkey. rewrite Iter_allL in Hin.
    apply list_elem_of_fmap in Hin as ([hs e'] & -> & Hin). simpl in *.
    pose proof (stored_hashOf h2 hs e' Hwf2 Hin) as ->.
    apply Hst2 in Hin as [[= _ ->]|[Hne _]]; [done|]. congruence.
Qed.

(** [Delete] leaves the other buckets alone: a key that selects another
    bucket than the deleted key is found, or missing, as before. *)
Theorem Delete_keeps_other_buckets h key h' key0 :
  reachable h →
  Delete h key = Ok h' →
  hashOf key0 mod actualBucketLength h ≠ hashOf key mod actualBucketLength h →
  GetValue h' key0 = GetValue h key0.
Proof.
  intros Hwf%reachable_wf Hrun Hne.
  destruct (Delete_wf h key Hwf) as (h2 & Hdel & Hwf' & Hbs & Hcap & _).
  assert (h2 = h') as -> by congruence.
  destruct (bucketAt_wf h (hashOf key0) Hwf) as [b Hb].
  assert (buckets h' !! Z.to_nat (hashOf key0 mod actualBucketLength h') = Some b) as Hb'.
  { rewrite Hcap, Hbs, list_lookup_insert_ne; [done|].
    pose proof (wf_cap_bounds h Hwf).
    pose proof (Z.mod_pos_bound (hashOf key0) (actualBucketLength h)).
    pose proof (Z.mod_pos_bound (hashOf key) (actualBucketLength h)). lia. }
  unfold GetValue. rewrite (Get_lookupL h key0 b), (Get_lookupL h' key0 b) by done.
  by destruct (lookupL _ _).
Qed.

(** *** Tables built by insertions only *)

Lemma insertAll_counts (kvs : list (K * V)) h :
  insertAll NewHashTable kvs = Ok h →
  wf h ∧ countsNodes h ∧ countsBuckets h ∧ isFull h = false ∧
  ∀ hs, (∃ e, stored h hs e) ↔ hs ∈ (λ kv, hashOf kv.1) <$> kvs.
Proof.
  revert h. induction kvs as [|[key value] kvs IH] using rev_ind; intros h Hrun.
  - injection Hrun as <-. split_and!; try done; [apply NewHashTable_wf|].
    intros hs. unfold stored, allL. simpl. split; [by intros [e ?%elem_of_nil]|].
    by intros ?%elem_of_nil.
  - rewrite insertAll_snoc in Hrun.
    destruct (insertAll NewHashTable kvs) as [h0| |]; [|done..]. simpl in Hrun.
    destruct (IH h0 eq_refl) as (Hwf0 & Hcn0 & Hcb0 & _ & Hst0).
    destruct (Insert_spec h0 key value h Hwf0 Hrun) as (Hwf & _ & Hst & Hcn).
    destruct (InsertFuel_counts 32 h0 key value h Hwf0 Hrun) as (_ & Hcb).
    split_and!; [done|auto|auto|by eapply InsertFuel_not_full|].
    intros hs. rewrite fmap_app, elem_of_app, <-Hst0. simpl.
    rewrite list_elem_of_singleton. split.
    + intros [e [[= -> _]|[_ Hin]]%Hst]; [by right|]. left. eauto.
    + intros [[e Hin]| ->].
      * destruct (decide (hs = hashOf key)) as [->|Hne].
        -- exists (mkEntry key value). apply Hst. by left.
        -- exists e. apply Hst. by right.
      * exists (mkEntry key value). apply Hst. by left.
Qed.

(** After insertions into the fresh table, whatever resizes they ran,
    [Size] is the number of different hashes among the inserted keys
    (as a 32-bit number): a key inserted again, or a key whose hash
    collides with an earlier one, is not counted twice. *)
Theorem Size_counts_distinct_hashes (kvs : list (K * V)) h :
  insertAll NewHashTable kvs = Ok h →
  Size h = wrap32 (Z.of_nat (length (remove_dups ((λ kv, hashOf kv.1) <$> kvs)))) ∧
  Size h = wrap32 (Z.of_nat (length (Iter h))).
Proof.
  intros (Hwf & Hcn & _ & _ & Hst)%insertAll_counts.
  assert (Size h = wrap32 (Z.of_nat (length (Iter h)))) as Hiter.
  { rewrite Iter_allL, length_fmap. apply Hcn. }
  split; [|done]. rewrite Hiter. do 2 f_equal.
  rewrite Iter_allL, length_fmap, <-(length_fmap fst (allL h)).
  apply Permutation_length, NoDup_Permutation.
  - by apply NoDup_allL_hashes.
  - apply NoDup_remove_dups.
  - intros hs. rewrite elem_of_remove_dups, <-Hst, list_elem_of_fmap. split.
    + intros ([hs' e] & -> & Hin). by exists e.
    + intros [e Hin]. by exists (hs, e).
Qed.

(** After insertions into the fresh table the counter of the load
    factor is exact: it is the number of bucket slots that hold a
    chain, and at most half of the slots do. *)
Theorem insert_only_counter_exact (kvs : list (K * V)) h :
  insertAll NewHashTable kvs = Ok h →
  actualBucketSize h = occupiedBuckets h ∧
  occupiedBuckets h ≤ actualBucketLength h / 2.
Proof.
  intros (Hwf & _ & Hcb & Hfull & _)%insertAll_counts. split; [done|].
  rewrite <-Hcb. unfold isFull in Hfull. apply Z.ltb_ge in Hfull.
  by rewrite Z.shiftr_div_pow2 in Hfull.
Qed.

(** *** Resizing *)

(** An [Insert] that resizes recounts: whatever [Delete] did to the
    counters before, afterwards [Size] is the number of nodes and the
    load-factor counter is the number of occupied buckets. *)
Theorem resizing_Insert_repairs_counters h key value h' :
  reachable h →
  triggersResize h key value = true →
  Insert h key value = Ok h' →
  Size h' = wrap32 (nodeCount h') ∧ actualBucketSize h' = occupiedBuckets h'.
Proof.
  intros Hwf%reachable_wf Htrig Hrun.
  destruct (beforeLoadTest_wf h key value Hwf)
    as (h1 & Hplaced & Hwf1 & Hcap1 & Hst1 & _).
  unfold triggersResize in Htrig. rewrite Hplaced in Htrig.
  unfold Insert in Hrun. rewrite InsertFuel_unfold, Hplaced in Hrun.
  simpl in Hrun. rewrite Htrig in Hrun.
  assert (allL h1 ≠ []) as Hne.
  { intros Hnil. assert (stored h1 (hashOf key) (mkEntry key value)) as Hin
      by (apply Hst1; by left).
    unfold stored in Hin. rewrite Hnil in Hin. by apply elem_of_nil in Hin. }
  destruct (Resize_spec (InsertFuel 31) (InsertFuel_spec 31) (InsertFuel_zero 31)
              h1 h' Hwf1 Hne Hrun) as (_ & _ & _ & Hcn).
  destruct (Resize_counts (InsertFuel 31) (InsertFuel_spec 31) (InsertFuel_counts 31)
              (InsertFuel_zero 31) h1 h' Hwf1 Hne Hrun) as (_ & Hcb).
  done.
Qed.

(** [Resize] called by hand on a table that holds a node: the capacity
    at least doubles, every key is found or missing as before, the
    traversal yields the same entries, and both counters are exact. *)
Theorem Resize_rehashes h h' :
  reachable h →
  Iter h ≠ [] →
  Resize Insert h = Ok h' →
  2 * actualBucketLength h ≤ actualBucketLength h' ∧
  (∀ key, GetValue h' key = GetValue h key) ∧
  Iter h' ≡ₚ Iter h ∧
  Size h' = wrap32 (nodeCount h') ∧
  actualBucketSize h' = occupiedBuckets h'.
Proof.
  intros Hwf%reachable_wf Hne Hrun.
  assert (allL h ≠ []) as Hne'.
  { intros Hnil. apply Hne. by rewrite Iter_allL, Hnil. }
  destruct (Resize_spec Insert Insert_spec (InsertFuel_zero 32) h h' Hwf Hne' Hrun)
    as (Hwf' & Hcap & Hst & Hcn).
  destruct (Resize_counts Insert Insert_spec (InsertFuel_counts 32)
              (InsertFuel_zero 32) h h' Hwf Hne' Hrun) as (_ & Hcb).
  split_and!; try done.
  - intros key. apply GetValue_ext; try done.
  - rewrite !Iter_allL. apply fmap_Permutation, NoDup_Permutation.
    + apply (NoDup_fmap_1 fst), NoDup_allL_hashes, Hwf'.
    + apply (NoDup_fmap_1 fst), NoDup_allL_hashes, Hwf.
    + intros [hs e]. apply Hst.
Qed.

(** *** The table as a map from hashes to values *)

Lemma lastValue_snoc (hs : Z) (kvs : list (K * V)) kv :
  lastValue hs (kvs ++ [kv]) =
  if hashOf kv.1 =? hs then Some kv.2 else lastValue hs kvs.
Proof. unfold lastValue. by rewrite fold_left_app. Qed.

(** Last write wins: after a series of insertions into a table, [Get]
    returns the value of the last inserted pair whose key has the hash
    of the key asked for; when there is none it answers as it did
    before the insertions. *)
Theorem insertAll_last_write_wins h (kvs : list (K * V)) h' key :
  reachable h →
  insertAll h kvs = Ok h' →
  GetValue h' key =
  match lastValue (hashOf key) kvs with
  | Some value => Ok value
  | None => GetValue h key
  end.
Proof.
  intros Hr. revert h'.
  induction kvs as [|[key0 value0] kvs IH] using rev_ind; intros h' Hrun.
  - by injection Hrun as <-.
  - rewrite insertAll_snoc in Hrun.
    destruct (insertAll h kvs) as [h0| |] eqn:Hrun0; [|done..]. simpl in Hrun.
    pose proof (reachable_wf h0 (insertAll_reachable h kvs h0 Hr Hrun0)) as Hwf0.
    rewrite lastValue_snoc. simpl.
    destruct (Z.eqb_spec (hashOf key0) (hashOf key)) as [Heq|Hne].
    + destruct (Insert_spec h0 key0 value0 h' Hwf0 Hrun) as (Hwf' & _ & Hst & _).
      rewrite (GetValue_stored h' key (mkEntry key0 value0)); [done..|].
      rewrite <-Heq. apply Hst. by left.
    + rewrite (GetValue_Insert_other h0 key0 value0 h' key) by done.
      by apply IH.
Qed.

Lemma elem_of_Iter h e :
  wf h → e ∈ Iter h ↔ stored h (hashOf (Key e)) e.
Proof.
  intros Hwf. rewrite Iter_allL, list_elem_of_fmap. split.
  - intros ([hs e'] & -> & Hin). simpl.
    by rewrite <-(stored_hashOf h hs e' Hwf Hin).
  - intros Hin. by exists (hashOf (Key e), e).
Qed.

(** The traversal and [Get] agree on every table that the public
    operations build: [Iter] never yields two entries whose keys have
    the same hash, every entry it yields is what [Get] finds for its
    key, and every value that [Get] finds is that of a yielded entry. *)
Theorem Iter_agrees_with_Get h :
  reachable h →
  NoDup ((λ e, hashOf (Key e)) <$> Iter h) ∧
  (∀ e, e ∈ Iter h → GetValue h (Key e) = Ok (Value e)) ∧
  (∀ key value, GetValue h key = Ok value →
                ∃ e, e ∈ Iter h ∧ hashOf (Key e) = hashOf key ∧ Value e = value).
Proof.
  intros Hwf%reachable_wf. split_and!.
  - assert ((λ e, hashOf (Key e)) <$> Iter h = (allL h).*1) as ->.
    { rewrite Iter_allL, <-list_fmap_compose. symmetry.
      apply Forall_fmap_ext_1. by apply Forall_allL_hashOf. }
    by apply NoDup_allL_hashes.
  - intros e Hin%elem_of_Iter; [|done]. by apply GetValue_stored.
  - intros key value HG. destruct (stored_dec h (hashOf key) Hwf) as [[e Hin]|Hnone].
    + rewrite (GetValue_stored h key e) in HG by done. injection HG as <-.
      pose proof (stored_hashOf h _ e Hwf Hin) as Hkey.
      exists e. split_and!; [|done..]. apply elem_of_Iter; [done|]. by rewrite <-Hkey.
    + by rewrite GetValue_not_stored in HG.
Qed.

(** [Delete] takes out of the traversal exactly the entries of the
    bucket that its key selects, whatever their keys; the entries of
    the other buckets stay. *)
Theorem Delete_drops_bucket_entries h key h' :
  reachable h →
  Delete h key = Ok h' →
  ∀ e, e ∈ Iter h' ↔
       e ∈ Iter h ∧
       hashOf (Key e) mod actualBucketLength h ≠ hashOf key mod actualBucketLength h.
Proof.
  intros Hwf%reachable_wf Hrun e.
  destruct (Delete_wf h key Hwf) as (h2 & Hdel & Hwf' & Hbs & Hcap & _).
  assert (h2 = h') as -> by congruence.
  pose proof (wf_cap_bounds h Hwf) as Hc.
  pose proof (Z.mod_pos_bound (hashOf key) (actualBucketLength h)) as Hk.
  rewrite !elem_of_Iter by done. split.
  - intros (i & b & Hi & Hin)%stored_lookup. rewrite Hbs in Hi.
    apply list_lookup_insert_Some in Hi as [(_ & <- & _)|[Hne Hi]];
      [by apply elem_of_nil in Hin|].
    split; [by eapply stored_intro|].
    destruct (stored_bucket h _ e i b Hwf Hi Hin) as [-> _].
    pose proof (Z.mod_pos_bound (hashOf (Key e)) (actualBucketLength h)). lia.
  - intros [(b & Hb & Hin)%stored_home Hne]; [|done].
    eapply stored_intro; [|done]. rewrite Hbs, list_lookup_insert_ne; [done|].
    pose proof (Z.mod_pos_bound (hashOf (Key e)) (actualBucketLength h)). lia.
Qed.

(** *** The collision walk *)



(** The traversal of a table built by insertions with pairwise
    different hashes. *)
Lemma Iter_insertAll (kvs : list (K * V)) h :
  NoDup ((λ kv, hashOf kv.1) <$> kvs) →
  insertAll NewHashTable kvs = Ok h →
  Iter h ≡ₚ (λ kv, mkEntry kv.1 kv.2) <$> kvs.
Proof.
  intros Hnd Hrun. destruct (insertAll_stored kvs h Hnd Hrun) as [Hwf Hst].
  assert (allL h ≡ₚ (λ kv, (hashOf kv.1, mkEntry kv.1 kv.2)) <$> kvs) as Hperm.
  { apply NoDup_Permutation.
    - apply (NoDup_fmap_1 fst), NoDup_allL_hashes, Hwf.
    - apply (NoDup_fmap_1 fst). by rewrite <-list_fmap_compose.
    - intros [hs e]. apply Hst. }
  rewrite Iter_allL, Hperm, <-list_fmap_compose. done.
Qed.

End More.

Section MoreScenarios.
Local Open Scope string_scope.

Lemma twoTable_reachable : reachable twoTable.
Proof. apply (reach_Insert oneTable "1" "bar"); [apply oneTable_reachable|]. by vm_compute. Qed.

Lemma staleTable_reachable : reachable staleTable.
Proof.
  apply (reach_Insert (returned (Delete fooTable "foo")) "0" "bar"); [|by vm_compute].
  apply (reach_Delete fooTable "foo"); [apply fooTable_reachable|by vm_compute].
Qed.

Lemma reachable_table_shape_witness :
  reachable twoTable ∧
  actualBucketLength twoTable = 4 ∧
  ∃ x : nat, (1 ≤ x ≤ 31)%nat ∧ actualBucketLength twoTable = 2 ^ Z.of_nat x.
Proof.
  split_and!; [apply twoTable_reachable|by vm_compute|].
  exact (proj1 (reachable_table_shape twoTable twoTable_reachable)).
Defined.

Lemma capacity_never_shrinks_witness :
  reachable oneTable ∧
  Insert oneTable "1" "bar" = Ok twoTable ∧
  triggersResize oneTable "1" "bar" = true ∧
  2 * actualBucketLength oneTable ≤ actualBucketLength twoTable.
Proof.
  assert (Insert oneTable "1" "bar" = Ok twoTable) as Hrun by (by vm_compute).
  assert (triggersResize oneTable "1" "bar" = true) as Htrig by (by vm_compute).
  split_and!; [apply oneTable_reachable|done..|].
  pose proof (proj1 (capacity_never_shrinks oneTable "1" "bar" oneTable_reachable)
                twoTable Hrun) as Hcap.
  by rewrite Htrig in Hcap.
Defined.

Lemma reachable_panics_witness :
  reachable fooTable ∧
  GetValue fooTable "baz" = Panic (KeyNotFound "baz") ∧
  ∃ h', Delete fooTable "baz" = Ok h'.
Proof.
  split_and!; [apply fooTable_reachable|by vm_compute|].
  exact (proj1 (proj2 (reachable_panics fooTable "baz" "qux" fooTable_reachable))).
Defined.

Lemma Insert_leaves_room_witness :
  Insert oneTable "1" "bar" = Ok twoTable ∧
  isFull twoTable = false ∧
  actualBucketSize twoTable ≤ actualBucketLength twoTable / 2.
Proof.
  assert (Insert oneTable "1" "bar" = Ok twoTable) as Hrun by (by vm_compute).
  split; [done|]. exact (Insert_leaves_room oneTable "1" "bar" twoTable Hrun).
Defined.

Lemma Insert_keeps_other_keys_witness :
  reachable oneTable ∧
  Insert oneTable "1" "bar" = Ok twoTable ∧
  hashOf "0" ≠ hashOf "1" ∧
  GetValue twoTable "0" = GetValue oneTable "0" ∧
  GetValue oneTable "0" = Ok "bar".
Proof.
  assert (Insert oneTable "1" "bar" = Ok twoTable) as Hrun by (by vm_compute).
  assert (hashOf "0" ≠ hashOf "1") as Hne by (by vm_compute).
  split_and!; [apply oneTable_reachable|done|done| |by vm_compute].
  exact (Insert_keeps_other_keys oneTable "1" "bar" twoTable "0"
           oneTable_reachable Hrun Hne).
Defined.

Lemma colliding_key_overwrites_witness :
  @hashOf string sameBytes "a" = @hashOf string sameBytes "b" ∧
  @Insert string string sameBytes NewHashTable "a" "1" = Ok collidedOnce ∧
  @Insert string string sameBytes collidedOnce "b" "2" = Ok collidedTwice ∧
  @GetValue string string sameBytes collidedTwice "a" = Ok "2" ∧
  Iter collidedTwice = [mkEntry "b" "2"].
Proof.
  assert (@hashOf string sameBytes "a" = @hashOf string sameBytes "b") as Hcoll
    by (by vm_compute).
  assert (@Insert string string sameBytes NewHashTable "a" "1" = Ok collidedOnce)
    as Hrun1 by (by vm_compute).
  assert (@Insert string string sameBytes collidedOnce "b" "2" = Ok collidedTwice)
    as Hrun2 by (by vm_compute).
  split_and!; [done..| |by vm_compute].
  exact (proj1 (@colliding_key_overwrites string string sameBytes NewHashTable
                  "a" "1" "b" "2" collidedOnce collidedTwice
                  (@reach_New string string sameBytes) Hcoll Hrun1 Hrun2)).
Defined.

Lemma Delete_keeps_other_buckets_witness :
  reachable twoTable ∧
  Delete twoTable "0" = Ok (returned (Delete twoTable "0")) ∧
  hashOf "1" mod actualBucketLength twoTable ≠ hashOf "0" mod actualBucketLength twoTable ∧
  GetValue (returned (Delete twoTable "0")) "1" = GetValue twoTable "1" ∧
  GetValue twoTable "1" = Ok "bar".
Proof.
  assert (Delete twoTable "0" = Ok (returned (Delete twoTable "0"))) as Hrun
    by (by vm_compute).
  assert (hashOf "1" mod actualBucketLength twoTable ≠
          hashOf "0" mod actualBucketLength twoTable) as Hne by (by vm_compute).
  split_and!; [apply twoTable_reachable|done|done| |by vm_compute].
  exact (Delete_keeps_other_buckets twoTable "0" _ "1" twoTable_reachable Hrun Hne).
Defined.

Lemma Size_counts_distinct_hashes_witness :
  insertAll NewStringTable repeatedPairs = Ok repeatedTable ∧
  Size repeatedTable = 2 ∧
  Size repeatedTable =
    wrap32 (Z.of_nat (length (remove_dups ((λ kv, hashOf kv.1) <$> repeatedPairs)))).
Proof.
  assert (insertAll NewStringTable repeatedPairs = Ok repeatedTable) as Hrun
    by (by vm_compute).
  split_and!; [done|by vm_compute|].
  exact (proj1 (Size_counts_distinct_hashes repeatedPairs repeatedTable Hrun)).
Defined.

Lemma insert_only_counter_exact_witness :
  insertAll NewStringTable (bars keys20) = Ok table20 ∧
  actualBucketSize table20 = occupiedBuckets table20 ∧
  occupiedBuckets table20 ≤ actualBucketLength table20 / 2.
Proof.
  assert (insertAll NewStringTable (bars keys20) = Ok table20) as Hrun
    by (by vm_compute).
  split; [done|]. exact (insert_only_counter_exact (bars keys20) table20 Hrun).
Defined.

Lemma resizing_Insert_repairs_counters_witness :
  reachable staleTable ∧
  Size staleTable = 2 ∧ nodeCount staleTable = 1 ∧
  triggersResize staleTable "1" "bar" = true ∧
  Insert staleTable "1" "bar" = Ok repairedTable ∧
  Size repairedTable = wrap32 (nodeCount repairedTable) ∧
  actualBucketSize repairedTable = occupiedBuckets repairedTable.
Proof.
  assert (triggersResize staleTable "1" "bar" = true) as Htrig by (by vm_compute).
  assert (Insert staleTable "1" "bar" = Ok repairedTable) as Hrun by (by vm_compute).
  split_and!; [apply staleTable_reachable|by vm_compute|by vm_compute|done|done|..];
    apply (resizing_Insert_repairs_counters staleTable "1" "bar" repairedTable
             staleTable_reachable Htrig Hrun).
Defined.

Lemma Resize_rehashes_witness :
  reachable twoTable ∧
  Iter twoTable ≠ [] ∧
  Resize Insert twoTable = Ok resizedTable ∧
  2 * actualBucketLength twoTable ≤ actualBucketLength resizedTable ∧
  Iter resizedTable ≡ₚ Iter twoTable.
Proof.
  assert (Iter twoTable ≠ []) as Hne by (by vm_compute).
  assert (Resize Insert twoTable = Ok resizedTable) as Hrun by (by vm_compute).
  destruct (Resize_rehashes twoTable resizedTable twoTable_reachable Hne Hrun)
    as (Hcap & _ & Hperm & _).
  split_and!; [apply twoTable_reachable|done..].
Defined.

Lemma insertAll_last_write_wins_witness :
  reachable fooTable ∧
  insertAll fooTable repeatedPairs = Ok (returned (insertAll fooTable repeatedPairs)) ∧
  GetValue (returned (insertAll fooTable repeatedPairs)) "0" = Ok "c" ∧
  GetValue (returned (insertAll fooTable repeatedPairs)) "foo" = Ok "bar".
Proof.
  assert (insertAll fooTable repeatedPairs =
          Ok (returned (insertAll fooTable repeatedPairs))) as Hrun by (by vm_compute).
  split_and!; [apply fooTable_reachable|done|..].
  - rewrite (insertAll_last_write_wins fooTable repeatedPairs _ "0"
               fooTable_reachable Hrun). by vm_compute.
  - rewrite (insertAll_last_write_wins fooTable repeatedPairs _ "foo"
               fooTable_reachable Hrun). by vm_compute.
Defined.

Lemma Iter_agrees_with_Get_witness :
  reachable twoTable ∧
  Iter twoTable = [mkEntry "0" "bar"; mkEntry "1" "bar"] ∧
  NoDup ((λ e, hashOf (Key e)) <$> Iter twoTable).
Proof.
  split_and!; [apply twoTable_reachable|by vm_compute|].
  exact (proj1 (Iter_agrees_with_Get twoTable twoTable_reachable)).
Defined.

Lemma Delete_drops_bucket_entries_witness :
  reachable twoTable ∧
  Delete twoTable "0" = Ok (returned (Delete twoTable "0")) ∧
  Iter (returned (Delete twoTable "0")) = [mkEntry "1" "bar"] ∧
  (mkEntry "0" "bar" ∈ Iter (returned (Delete twoTable "0")) ↔
   mkEntry "0" "bar" ∈ Iter twoTable ∧
   hashOf "0" mod actualBucketLength twoTable ≠ hashOf "0" mod actualBucketLength twoTable).
Proof.
  assert (Delete twoTable "0" = Ok (returned (Delete twoTable "0"))) as Hrun
    by (by vm_compute).
  split_and!; [apply twoTable_reachable|done|by vm_compute|].
  exact (Delete_drops_bucket_entries twoTable "0" _ twoTable_reachable Hrun
           (mkEntry "0" "bar")).
Defined.


Lemma Insert_returns_small_witness :
  reachable fooTable ∧
  actualBucketLength fooTable ≤ 2 ^ 30 ∧
  nodeCount fooTable < 2 ^ 30 ∧
  ∃ h', Insert fooTable "baz" "qux" = Ok h'.
Proof.
  assert (actualBucketLength fooTable ≤ 2 ^ 30) as Hcap by (by vm_compute).
  assert (nodeCount fooTable < 2 ^ 30) as Hn by (by vm_compute).
  split_and!; [apply fooTable_reachable|done..|].
  exact (Insert_returns_small fooTable "baz" "qux" fooTable_reachable Hcap Hn).
Defined.

End MoreScenarios.

End hashtable.

(** ** Properties of the list collection *)

Module iterator_facts.

Section ListFacts.
Context {E : Type}.
Implicit Types (l c : iterator.List E) (x : E).

Lemma List_eq l c : iterator.elements l = iterator.elements c → l = c.
Proof. destruct l, c. simpl. by intros ->. Qed.

Lemma fold_Append {A} (f : A → E) (xs : list A) c :
  iterator.elements
    (fold_left (λ collection entry, iterator.Append collection (f entry)) xs c) =
  iterator.elements c ++ (f <$> xs).
Proof.
  revert c. induction xs as [|a xs IH]; intros c; simpl.
  - by rewrite app_nil_r.
  - rewrite IH. simpl. by rewrite <-app_assoc.
Qed.

Lemma fold_Filter (f : E → bool) (xs : list E) c :
  iterator.elements
    (fold_left (λ collection entry,
                  if f entry then iterator.Append collection entry else collection)
               xs c) =
  iterator.elements c ++ filter (λ entry, f entry = true) xs.
Proof.
  revert c. induction xs as [|a xs IH]; intros c; simpl.
  - by rewrite app_nil_r.
  - rewrite IH, filter_cons. destruct (f a).
    + rewrite decide_True by done. simpl. by rewrite <-app_assoc.
    + by rewrite decide_False by done.
Qed.

Lemma fold_left_fmap {A B C} (g : A → B) (f : C → B → C) (xs : list A) (s : C) :
  fold_left f (g <$> xs) s = fold_left (λ s a, f s (g a)) xs s.
Proof. revert s. induction xs as [|a xs IH]; intros s; simpl; [done|apply IH]. Qed.

Lemma fold_left_filter {A C} (p : A → bool) (f : C → A → C) (xs : list A) (s : C) :
  fold_left f (filter (λ a, p a = true) xs) s =
  fold_left (λ s a, if p a then f s a else s) xs s.
Proof.
  revert s. induction xs as [|a xs IH]; intros s; simpl; [done|].
  rewrite filter_cons. destruct (p a).
  - rewrite decide_True by done. apply IH.
  - rewrite decide_False by done. apply IH.
Qed.

End ListFacts.

Section ListTheorems.
Context {E : Type}.
Implicit Types (l : iterator.List E) (x : E).

(** [Map] on a list keeps the order and the number of the elements, so
    the size it reports is that of the list, and two [Map]s in a row
    are the [Map] of the composed function. *)
Theorem List_Map_keeps_order {R T : Type} (f : E → R) (g : R → T) l :
  iterator.Iter (iterator.Map f l) = f <$> iterator.Iter l ∧
  iterator.Size (iterator.Map f l) = iterator.Size l ∧
  iterator.Map g (iterator.Map f l) = iterator.Map (g ∘ f) l.
Proof.
  assert (∀ (A B : Type) (k : A → B) (c : iterator.List A),
            iterator.elements (iterator.Map k c) = k <$> iterator.elements c) as HMap.
  { intros A B k c. unfold iterator.Map. by rewrite fold_Append. }
  split_and!.
  - apply HMap.
  - unfold iterator.Size. by rewrite HMap, length_fmap.
  - apply List_eq. rewrite !HMap. by rewrite <-list_fmap_compose.
Qed.

(** [Filter] on a list keeps exactly the elements for which the
    function answers true, in their order; filtering twice is
    filtering by the conjunction, and the result is never longer. *)
Theorem List_Filter_keeps_matching (f g : E → bool) l :
  iterator.Iter (iterator.Filter f l) = filter (λ x, f x = true) (iterator.Iter l) ∧
  (∀ x, x ∈ iterator.Iter (iterator.Filter f l) ↔ x ∈ iterator.Iter l ∧ f x = true) ∧
  iterator.Filter g (iterator.Filter f l) = iterator.Filter (λ x, f x && g x) l ∧
  (length (iterator.Iter (iterator.Filter f l)) ≤ length (iterator.Iter l))%nat.
Proof.
  assert (∀ (k : E → bool) (c : iterator.List E),
            iterator.elements (iterator.Filter k c) =
            filter (λ x, k x = true) (iterator.elements c)) as HFilter.
  { intros k c. unfold iterator.Filter. by rewrite fold_Filter. }
  unfold iterator.Iter. split_and!.
  - apply HFilter.
  - intros x. rewrite HFilter, list_elem_of_filter. tauto.
  - apply List_eq. rewrite !HFilter, list_filter_filter.
    apply list_filter_iff. intros x. rewrite andb_true_iff. tauto.
  - rewrite HFilter. apply length_filter.
Qed.

(** [ForEach] after [Map] or [Filter] on a list runs the action on the
    mapped elements, or on the elements kept, in the order of the list. *)
Theorem List_ForEach_composes {R A : Type} (f : E → R) (p : E → bool)
    (act : R → A → A) (act' : E → A → A) l (a : A) :
  iterator.ForEach act (iterator.Map f l) a =
    iterator.ForEach (λ x, act (f x)) l a ∧
  iterator.ForEach act' (iterator.Filter p l) a =
    iterator.ForEach (λ x a, if p x then act' x a else a) l a.
Proof.
  unfold iterator.ForEach, iterator.Iter, iterator.Map, iterator.Filter. split.
  - rewrite fold_Append. simpl. apply fold_left_fmap.
  - rewrite fold_Filter. simpl.
    apply (fold_left_filter p (λ a x, act' x a)).
Qed.

(** [Remove] returns exactly when the index is a position of the list;
    the result is then the list without that position, the elements
    after it moved down by one.  Any other index, and any index on the
    empty list, ends in a slice-bounds panic. *)
Theorem List_Remove_spec l (index : Z) :
  match iterator.Remove l index with
  | iterator.Returns l' =>
      0 ≤ index < Z.of_nat (length (iterator.Iter l)) ∧
      S (length (iterator.Iter l')) = length (iterator.Iter l) ∧
      ∀ j : nat,
        iterator.Iter l' !! j =
        if decide (j < Z.to_nat index)%nat
        then iterator.Iter l !! j else iterator.Iter l !! S j
  | iterator.SliceBoundsOutOfRange =>
      index < 0 ∨ Z.of_nat (length (iterator.Iter l)) ≤ index
  end.
Proof.
  unfold iterator.Remove, iterator.Iter.
  destruct (Z.ltb_spec index 0) as [Hneg|Hpos]; simpl; [by left|].
  destruct (Z.ltb_spec (Z.of_nat (length (iterator.elements l))) (index + 1))
    as [Hbig|Hin]; simpl; [right; lia|].
  set (xs := iterator.elements l) in *. set (i := Z.to_nat index).
  replace (Z.to_nat (index + 1)) with (S i) by lia.
  assert (i < length xs)%nat as Hi by lia.
  split_and!; [lia..| |].
  - rewrite length_app, length_take, length_drop. lia.
  - intros j. case_decide as Hj.
    + rewrite lookup_app_l by (rewrite length_take; lia).
      by rewrite lookup_take_lt.
    + rewrite lookup_app_r by (rewrite length_take; lia).
      rewrite length_take, lookup_drop. f_equal. lia.
Qed.

(** [Append] followed by [Remove] of the last position gives the list
    back; the appended element is the last one that [Iter] yields. *)
Theorem List_Append_Remove_last l x :
  iterator.Remove (iterator.Append l x) (Z.of_nat (length (iterator.Iter l))) =
    iterator.Returns l ∧
  iterator.Iter (iterator.Append l x) = iterator.Iter l ++ [x] ∧
  iterator.IsEmpty (iterator.Append l x) = false.
Proof.
  unfold iterator.Remove, iterator.Append, iterator.Iter, iterator.IsEmpty. simpl.
  split_and!; [|done|].
  - destruct (Z.ltb_spec (Z.of_nat (length (iterator.elements l))) 0); [lia|].
    rewrite length_app. simpl.
    destruct (Z.ltb_spec (Z.of_nat (length (iterator.elements l) + 1))
                (Z.of_nat (length (iterator.elements l)) + 1)); [lia|]. simpl.
    rewrite Nat2Z.id. f_equal. apply List_eq. simpl.
    rewrite take_app_length.
    replace (Z.to_nat (Z.of_nat (length (iterator.elements l)) + 1))
      with (length (iterator.elements l ++ [x])) by (rewrite length_app; simpl; lia).
    by rewrite drop_all, app_nil_r.
  - rewrite length_app. simpl. apply Z.eqb_neq. lia.
Qed.

(** [Size] is the length as a 16-bit number: it is the length below
    65536, it grows by one modulo 65536 with [Append], and it is 0 on a
    list that is not empty exactly when the length is a multiple of
    65536. *)
Theorem List_Size_wraps l x :
  (Z.of_nat (length (iterator.Iter l)) < 65536 →
   iterator.Size l = Z.of_nat (length (iterator.Iter l))) ∧
  iterator.Size (iterator.Append l x) = (iterator.Size l + 1) mod 65536 ∧
  (iterator.Size l = 0 ∧ iterator.IsEmpty l = false ↔
   ∃ k, 0 < k ∧ Z.of_nat (length (iterator.Iter l)) = 65536 * k).
Proof.
  unfold iterator.Size, iterator.IsEmpty, iterator.Iter, iterator.Append. simpl.
  change (2 ^ 16) with 65536. split_and!.
  - intros Hlt. apply Z.mod_small. lia.
  - rewrite length_app. simpl. rewrite Nat2Z.inj_add. simpl.
    by rewrite Zplus_mod_idemp_l.
  - set (n := Z.of_nat (length (iterator.elements l))).
    assert (0 ≤ n) by lia. split.
    + intros [Hmod Hne]. apply Z.eqb_neq in Hne.
      exists (n / 65536). pose proof (Z.div_mod n 65536). lia.
    + intros (k & Hk & ->). split.
      * rewrite Z.mul_comm. by apply Z_mod_mult.
      * apply Z.eqb_neq. lia.
Qed.

End ListTheorems.

End iterator_facts.

(** ** [Map], [Filter] and [ForEach] on the table *)

Module hashtable_facts.
Import hashtable.

Section Traversal.
Context {K V : Type} `{!GobEncoder K}.
Implicit Types (h : HashTable K V) (e : Entry K V).

(** [Map] and [Filter] on a table follow its traversal: [Map] yields
    the image of every entry that [Iter] yields, in the same order, and
    [Filter] the entries for which the function answers true, in the
    same order; the size that the result of [Map] reports is the number
    of entries as a 16-bit number. *)
Theorem Map_Filter_follow_Iter {R : Type} (f : Entry K V → R)
    (p : Entry K V → bool) h :
  iterator.Iter (Map f h) = f <$> Iter h ∧
  iterator.Iter (Filter p h) = filter (λ e, p e = true) (Iter h) ∧
  iterator.Size (Map f h) = Z.of_nat (length (Iter h)) mod 65536.
Proof.
  unfold iterator.Iter, iterator.Size, Map, Filter.
  rewrite iterator_facts.fold_Append, iterator_facts.fold_Filter. simpl.
  by rewrite length_fmap.
Qed.

(** After the insertion of keys with pairwise different hashes into the
    fresh table, [Map] yields the image of each inserted pair exactly
    once and [Filter] each inserted pair that satisfies the function
    exactly once, in the order of the traversal. *)
Theorem Map_Filter_of_inserted {R : Type} (f : Entry K V → R)
    (p : Entry K V → bool) (kvs : list (K * V)) h :
  NoDup ((λ kv, hashOf kv.1) <$> kvs) →
  insertAll NewHashTable kvs = Ok h →
  iterator.Iter (Map f h) ≡ₚ (λ kv, f (mkEntry kv.1 kv.2)) <$> kvs ∧
  iterator.Iter (Filter p h) ≡ₚ
    filter (λ e, p e = true) ((λ kv, mkEntry kv.1 kv.2) <$> kvs) ∧
  iterator.Size (Map f h) = Z.of_nat (length kvs) mod 65536.
Proof.
  intros Hnd Hrun. pose proof (Iter_insertAll kvs h Hnd Hrun) as Hperm.
  unfold iterator.Iter, iterator.Size, Map, Filter.
  rewrite iterator_facts.fold_Append, iterator_facts.fold_Filter. simpl.
  rewrite length_fmap, !Hperm, length_fmap. split_and!; [|done..].
  by rewrite <-list_fmap_compose.
Qed.

(** [ForEach] runs the action once for every node, in the order of the
    traversal: counting visits gives the number of nodes, and [ForEach]
    on the result of [Map] or [Filter] is [ForEach] on the table with
    the mapped, or guarded, action. *)
Theorem ForEach_visits_each_node {R A : Type} (f : Entry K V → R)
    (p : Entry K V → bool) (act : R → A → A) (act' : Entry K V → A → A)
    h (a : A) :
  ForEach (λ _ n, n + 1) h 0 = nodeCount h ∧
  iterator.ForEach act (Map f h) a = ForEach (λ e, act (f e)) h a ∧
  iterator.ForEach act' (Filter p h) a =
    ForEach (λ e a, if p e then act' e a else a) h a.
Proof.
  split_and!.
  - assert (∀ (xs : list (Entry K V)) (n : Z),
              fold_left (λ n _, n + 1) xs n = n + Z.of_nat (length xs)) as Hcount.
    { induction xs as [|x xs IH]; intros n; simpl; [lia|]. rewrite IH. lia. }
    unfold ForEach, nodeCount. by rewrite Hcount, Iter_allL, length_fmap.
  - unfold iterator.ForEach, iterator.Iter, ForEach, Map.
    rewrite iterator_facts.fold_Append. simpl. apply iterator_facts.fold_left_fmap.
  - unfold iterator.ForEach, iterator.Iter, ForEach, Filter.
    rewrite iterator_facts.fold_Filter. simpl.
    apply (iterator_facts.fold_left_filter p (λ a e, act' e a)).
Qed.

End Traversal.

Section TraversalScenarios.
Local Open Scope string_scope.

Lemma Map_Filter_of_inserted_witness :
  NoDup ((λ kv, hashOf kv.1) <$> bars ["0"; "1"; "2"]) ∧
  insertAll NewStringTable (bars ["0"; "1"; "2"]) = Ok threeTable ∧
  iterator.Iter (Map Key threeTable) ≡ₚ ["0"; "1"; "2"] ∧
  iterator.Size (Map Key threeTable) = 3.
Proof.
  assert (NoDup ((λ kv, hashOf kv.1) <$> bars ["0"; "1"; "2"])) as Hnd
    by (apply (bool_decide_unpack _); by vm_compute).
  assert (insertAll NewStringTable (bars ["0"; "1"; "2"]) = Ok threeTable) as Hrun
    by (by vm_compute).
  destruct (Map_Filter_of_inserted Key (λ _, true) (bars ["0"; "1"; "2"]) threeTable
              Hnd Hrun) as (Hmap & _ & Hsize).
  split_and!; done.
Defined.

End TraversalScenarios.

End hashtable_facts.
